(** * wyoming-cloud-streamer: the audio-streaming relay

    A shallow embedding of [wyoming_cloud_streamer/engines.py] and
    [wyoming_cloud_streamer/handler.py].

    - Python [bytes] are lists of [Byte.byte]; Python [int] is [Z].
    - Python [str] is [string]; its characters are the code points
      U+0000..U+00FF (the 8-bit characters of [Ascii]), on which
      [str.lower], [str.strip] and [str.splitlines] are written out.
    - An async generator is the finite list of the events it yields.
    - The upstream providers are data: the fragments a streaming call
      delivers (transport failures are outside the model).
    - A raised exception is a value [Exn] carried next to the events
      written so far. *)

From Stdlib Require Import Strings.Ascii Strings.String Strings.Byte.
From Stdlib Require Import ZArith List Bool Lia.
Import ListNotations.

Local Open Scope Z_scope.

(* ================================================================== *)
(** ** Bytes                                                            *)
(* ================================================================== *)

Module Bytes.

Definition bytes := list byte.

(** [buf[a:b]] for [0 <= a <= b]. *)
Definition slice (a b : nat) (buf : bytes) : bytes :=
  firstn (b - a) (skipn a buf).

(** [int.from_bytes(bs, "little", signed=False)]. *)
Fixpoint from_bytes_little (bs : bytes) : Z :=
  match bs with
  | [] => 0
  | b :: r => Z.of_N (Byte.to_N b) + 256 * from_bytes_little r
  end.

Fixpoint eqb (x y : bytes) : bool :=
  match x, y with
  | [], [] => true
  | a :: x', b :: y' => Byte.eqb a b && eqb x' y'
  | _, _ => false
  end.

(** Truth value of a [bytes] object: non-empty. *)
Definition truthy (b : bytes) : bool :=
  match b with [] => false | _ => true end.

Definition RIFF : bytes := [x52; x49; x46; x46].
Definition WAVE : bytes := [x57; x41; x56; x45].

(** The byte of [buf] at offset [i], as a number. *)
Definition byte_at (i : nat) (buf : bytes) : Z := Z.of_N (Byte.to_N (nth i buf x00)).

End Bytes.
Import Bytes.

(* ================================================================== *)
(** ** engines.py: audio format and adapter events                      *)
(* ================================================================== *)

Record AudioFormat := mkAudioFormat {
  rate : Z;       (* Hz *)
  width : Z;      (* bytes per sample *)
  channels : Z    (* 1 = mono, 2 = stereo *)
}.

(** The tuples [("format", AudioFormat)] and [("chunk", bytes)]. *)
Inductive AudioEvent :=
| Format (fmt : AudioFormat)
| Chunk (data : bytes).

Definition is_format (e : AudioEvent) : bool :=
  match e with Format _ => true | Chunk _ => false end.

Definition count_format (evs : list AudioEvent) : nat :=
  length (filter is_format evs).

Fixpoint chunk_payloads (evs : list AudioEvent) : list bytes :=
  match evs with
  | [] => []
  | Format _ :: r => chunk_payloads r
  | Chunk d :: r => d :: chunk_payloads r
  end.

(** One format, then chunks only. *)
Definition format_then_chunks (evs : list AudioEvent) : Prop :=
  exists fmt chunks, evs = Format fmt :: map Chunk chunks.

(** [x = v if v else x] for an [int] or [None] [v]: the value kept. *)
Definition or_default (v : option Z) (d : Z) : Z :=
  match v with
  | Some n => if n =? 0 then d else n
  | None => d
  end.

(* ================================================================== *)
(** ** OpenAITTSEngine.stream: the container header detector            *)
(* ================================================================== *)

Module Wav.

(** The tuple [(ok, data_offset, sr, ch, width_bytes)]. *)
Record Parse := mkParse {
  ok : bool;
  data_offset : nat;
  sr : option Z;
  ch : option Z;
  width_bytes : option Z
}.

Definition has_magic (buf : bytes) : bool :=
  Bytes.eqb (slice 0 4 buf) RIFF && Bytes.eqb (slice 8 12 buf) WAVE.

Definition try_parse_wav_header (buf : bytes) : Parse :=
  if (length buf <? 44)%nat then mkParse false 0 None None None
  else if negb (has_magic buf) then mkParse true 0 None None None
  else
    let ch := from_bytes_little (slice 22 24 buf) in
    let sr := from_bytes_little (slice 24 28 buf) in
    let bits := from_bytes_little (slice 34 36 buf) in
    let data_offset := 44%nat in
    mkParse true data_offset (Some sr) (Some ch)
            (if bits =? 0 then None else Some (bits / 8)).

(** The local variables of [stream] that the loop reads and writes. *)
Record State := mkState {
  got_header : bool;
  header_buf : bytes;
  sample_rate : Z;
  st_channels : Z;
  st_width : Z
}.

Definition initial : State := mkState false [] 24000 1 2.

(** What [stream] announces once a parse result [p] is in. *)
Definition announced_format (st : State) (p : Parse) : AudioFormat :=
  mkAudioFormat (or_default (sr p) (sample_rate st))
                (or_default (width_bytes p) (st_width st))
                (or_default (ch p) (st_channels st)).

(** The body of [for chunk in resp.iter_bytes()]. *)
Fixpoint loop (st : State) (frags : list bytes) : list AudioEvent :=
  match frags with
  | [] => []
  | chunk :: rest =>
      if negb (truthy chunk) then loop st rest
      else if negb (got_header st) then
        let buf := header_buf st ++ chunk in
        let p := try_parse_wav_header buf in
        if negb (ok p) then
          loop (mkState false buf (sample_rate st) (st_channels st) (st_width st)) rest
        else
          let fmt := announced_format st p in
          let payload := skipn (data_offset p) buf in
          Format fmt
            :: (if truthy payload then [Chunk payload] else [])
            ++ loop (mkState true buf (rate fmt) (channels fmt) (width fmt)) rest
      else Chunk chunk :: loop st rest
  end.

(** The events of one provider stream over the response body [frags]. *)
Definition events (frags : list bytes) : list AudioEvent := loop initial frags.

(** The state while the header is still awaited, with [buf] buffered. *)
Definition unresolved (buf : bytes) (r c w : Z) : State := mkState false buf r c w.

(** The payload found in the buffer when the header resolves, as the
    events it gives. *)
Definition leading (payload : bytes) : list AudioEvent :=
  if truthy payload then [Chunk payload] else [].

End Wav.

(* ================================================================== *)
(** ** Python [str] operations used by the relay                        *)
(* ================================================================== *)

Module Str.

Local Open Scope string_scope.
Local Open Scope N_scope.

(** [c.isspace()] on U+0000..U+00FF. *)
Definition is_space (c : ascii) : bool :=
  let n := N_of_ascii c in
  ((9 <=? n) && (n <=? 13)) || ((28 <=? n) && (n <=? 32))
  || (n =? 133) || (n =? 160).

(** [c.lower()] on U+0000..U+00FF: A-Z and the Latin-1 capitals
    (all of U+00C0..U+00DE but the multiplication sign). *)
Definition lower_char (c : ascii) : ascii :=
  let n := N_of_ascii c in
  if ((65 <=? n) && (n <=? 90))
     || ((192 <=? n) && (n <=? 222) && negb (n =? 215))
  then ascii_of_N (n + 32) else c.

Fixpoint lower (s : string) : string :=
  match s with
  | EmptyString => EmptyString
  | String c r => String (lower_char c) (lower r)
  end.

Definition is_empty (s : string) : bool :=
  match s with EmptyString => true | _ => false end.

Fixpoint lstrip (s : string) : string :=
  match s with
  | EmptyString => EmptyString
  | String c r => if is_space c then lstrip r else s
  end.

Fixpoint rstrip (s : string) : string :=
  match s with
  | EmptyString => EmptyString
  | String c r =>
      match rstrip r with
      | EmptyString => if is_space c then EmptyString else String c EmptyString
      | r' => String c r'
      end
  end.

(** [s.strip()]. *)
Definition strip (s : string) : string := rstrip (lstrip s).

(** [s.startswith(t)]. *)
Fixpoint startswith (t s : string) : bool :=
  match t, s with
  | EmptyString, _ => true
  | String _ _, EmptyString => false
  | String a t', String b s' => Ascii.eqb a b && startswith t' s'
  end.

(** [t in s]. *)
Fixpoint contains (t s : string) : bool :=
  startswith t s ||
  match s with
  | EmptyString => false
  | String _ r => contains t r
  end.

Fixpoint drop (n : nat) (s : string) : string :=
  match n, s with
  | O, _ => s
  | S _, EmptyString => EmptyString
  | S k, String _ r => drop k r
  end.

(** [s.split(sep, 1)[1]] for a non-empty [sep]; [None] is the
    [IndexError] of a one-element split. *)
Fixpoint after_first (sep s : string) : option string :=
  if startswith sep s then Some (drop (String.length sep) s)
  else match s with
       | EmptyString => None
       | String _ r => after_first sep r
       end.

(** [s.split(c)] for a one-character separator. *)
Fixpoint split_char (c : ascii) (s : string) : list string :=
  match s with
  | EmptyString => [EmptyString]
  | String a r =>
      if Ascii.eqb a c then EmptyString :: split_char c r
      else match split_char c r with
           | [] => [String a EmptyString]
           | h :: t => String a h :: t
           end
  end.

(** [sep.join(parts)]. *)
Fixpoint join (sep : string) (parts : list string) : string :=
  match parts with
  | [] => EmptyString
  | [p] => p
  | p :: r => p ++ sep ++ join sep r
  end.

(** The line boundaries of [str.splitlines] on U+0000..U+00FF. *)
Definition is_linebreak (c : ascii) : bool :=
  let n := N_of_ascii c in
  ((10 <=? n) && (n <=? 13)) || ((28 <=? n) && (n <=? 30)) || (n =? 133).

Definition CR : ascii := ascii_of_N 13.
Definition LF : ascii := ascii_of_N 10.

Fixpoint splitlines_from (cur s : string) : list string :=
  match s with
  | EmptyString => if is_empty cur then [] else [cur]
  | String c r =>
      if Ascii.eqb c CR then
        match r with
        | String c' r' =>
            if Ascii.eqb c' LF then cur :: splitlines_from EmptyString r'
            else cur :: splitlines_from EmptyString r
        | EmptyString => cur :: splitlines_from EmptyString r
        end
      else if is_linebreak c then cur :: splitlines_from EmptyString r
      else splitlines_from (cur ++ String c EmptyString) r
  end.

(** [s.splitlines()]. *)
Definition splitlines (s : string) : list string := splitlines_from EmptyString s.

(** Truth value of a [str]: non-empty. *)
Definition truthy (s : string) : bool := negb (is_empty s).

(** The first character of [t] is not white space. *)
Definition starts_nonspace (t : string) : bool :=
  match t with
  | EmptyString => false
  | String c _ => negb (is_space c)
  end.

(** The last character of [t] is not white space. *)
Fixpoint ends_nonspace (t : string) : bool :=
  match t with
  | EmptyString => false
  | String c r =>
      match r with
      | EmptyString => negb (is_space c)
      | String _ _ => ends_nonspace r
      end
  end.

End Str.

(* ================================================================== *)
(** ** Exceptions, configuration and the upstream providers             *)
(* ================================================================== *)

Local Open Scope string_scope.
Local Open Scope list_scope.
Local Open Scope Z_scope.

(** A raised Python exception: [err.__class__.__name__] and [str(err)]. *)
Record Exn := mkExn { exn_class : string; exn_text : string }.

(** Unpacking [None] in [provider, engine, norm_voice = ...pick(...)]. *)
Definition TypeError_unpack_None : Exn :=
  mkExn "TypeError" "cannot unpack non-iterable NoneType object".

(** [xs[1]] on a one-element list. *)
Definition IndexError_list : Exn := mkExn "IndexError" "list index out of range".

(** A failed [assert] without a message. *)
Definition AssertionError_ : Exn := mkExn "AssertionError" "".

(** The attributes of [cli_args] the relay reads with [getattr(..., default)];
    [None] is an absent attribute. *)
Record CliArgs := mkCliArgs {
  cli_sample_rate : option Z;
  cli_voice : option string;
  cli_streaming : option bool
}.

(** [getattr(cli_args, "sample_rate", 22050)]. *)
Definition getattr_sample_rate (cli : CliArgs) : Z :=
  match cli_sample_rate cli with Some r => r | None => 22050 end.

(** [getattr(cli_args, "voice", "en-US-Chirp3-HD-Charon")]. *)
Definition getattr_voice (cli : CliArgs) : string :=
  match cli_voice cli with Some v => v | None => "en-US-Chirp3-HD-Charon" end.

(** [getattr(cli_args, "streaming", True)]. *)
Definition getattr_streaming (cli : CliArgs) : bool :=
  match cli_streaming cli with Some b => b | None => true end.

(** What the two cloud services answer, and the process environment. *)
Record Upstream := mkUpstream {
  (** [client.streaming_synthesize]: voice name, language code, text to
      the responses' [audio_content] ([None]: the attribute is absent). *)
  google_streaming_synthesize : string -> string -> string -> list (option bytes);
  (** [client.audio.speech.with_streaming_response.create(model, voice,
      input)] followed by [resp.iter_bytes()]. *)
  openai_iter_bytes : string -> string -> string -> list bytes;
  (** [os.getenv("OPENAI_TTS_MODEL")]. *)
  getenv_OPENAI_TTS_MODEL : option string
}.

(** An async generator run to its end: the events it yielded and the
    exception that ended it, if one did. *)
Definition Stream := (list AudioEvent * option Exn)%type.

(* ================================================================== *)
(** ** GoogleTTSEngine                                                  *)
(* ================================================================== *)

Module GoogleTTSEngine.

Definition _language_code_from_voice (voice_name : string) : string :=
  let parts := Str.split_char "-" voice_name in
  if (2 <=? length parts)%nat then Str.join "-" (firstn 2 parts) else "en-US".

(** [for resp in responses: if getattr(resp, "audio_content", None): yield]. *)
Fixpoint forward (responses : list (option bytes)) : list AudioEvent :=
  match responses with
  | [] => []
  | Some audio_content :: r =>
      if truthy audio_content then Chunk audio_content :: forward r else forward r
  | None :: r => forward r
  end.

Definition stream (U : Upstream) (text voice_name : string) (cli : CliArgs) : Stream :=
  let language_code := _language_code_from_voice voice_name in
  let sample_rate := getattr_sample_rate cli in
  (Format (mkAudioFormat sample_rate 2 1)
     :: forward (google_streaming_synthesize U voice_name language_code text),
   None).

End GoogleTTSEngine.

(* ================================================================== *)
(** ** OpenAITTSEngine                                                  *)
(* ================================================================== *)

Module OpenAITTSEngine.

Definition default_model : string := "gpt-4o-mini-tts".

(** [None] is the [IndexError] of [n.split("-openai-", 1)[1]] when only
    the lowercased [n] holds the infix. *)
Definition _parse_voice (voice_name : string) : option string :=
  let n := Str.strip voice_name in
  if Str.contains "-openai-" (Str.lower n) then Str.after_first "-openai-" n
  else Some n.

(** [os.getenv("OPENAI_TTS_MODEL") or self.default_model]. *)
Definition model (U : Upstream) : string :=
  match getenv_OPENAI_TTS_MODEL U with
  | Some m => if Str.truthy m then m else default_model
  | None => default_model
  end.

Definition stream (U : Upstream) (text voice_name : string) (cli : CliArgs) : Stream :=
  match _parse_voice voice_name with
  | None => ([], Some IndexError_list)
  | Some voice => (Wav.events (openai_iter_bytes U (model U) voice text), None)
  end.

End OpenAITTSEngine.

(* ================================================================== *)
(** ** EngineRegistry                                                   *)
(* ================================================================== *)

Inductive Provider := google | openai.

Module EngineRegistry.

(** [self._engines[provider].stream]. *)
Definition engine_stream (p : Provider) : Upstream -> string -> string -> CliArgs -> Stream :=
  match p with
  | google => GoogleTTSEngine.stream
  | openai => OpenAITTSEngine.stream
  end.

(** [pick]: the provider and the normalized voice; the engine is
    [engine_stream] of the provider.  Falling off the end of the
    function returns [None]. *)
Definition pick (voice_name : option string) : option (Provider * string) :=
  let v := Str.lower (Str.strip (match voice_name with
                                 | Some s => if Str.truthy s then s else ""
                                 | None => ""
                                 end)) in
  if Str.contains "-chirp3-hd-" v then Some (google, v)
  else if Str.contains "-openai-" v then Some (openai, v)
  else None.

End EngineRegistry.

(* ================================================================== *)
(** ** handler.py: protocol events                                      *)
(* ================================================================== *)

(** [wyoming.tts.SynthesizeVoice], of which the relay reads [name]. *)
Record SynthesizeVoice := mkVoice { name : option string }.

(** [wyoming.tts.Synthesize]. *)
Record Synthesize := mkSynthesize {
  text : string;
  voice : option SynthesizeVoice
}.

(** The decoded requests [handle_event] tells apart with [is_type]. *)
Inductive Event :=
| EvDescribe
| EvSynthesize (synthesize : Synthesize)
| EvSynthesizeStart (voice : option SynthesizeVoice)
| EvSynthesizeChunk (text : string)
| EvSynthesizeStop
| EvOther.

(** The events [write_event] sends to the client. *)
Inductive Out :=
| Info
| AudioStart (rate width channels : Z)
| AudioChunk (audio : bytes) (rate width channels : Z)
| AudioStop
| SynthesizeStopped
| Error (text code : string).

(** [" ".join(text.strip().splitlines())]. *)
Definition collapse_lines (text : string) : string :=
  Str.join " " (Str.splitlines (Str.strip text)).

(** How a call of [handle_event] ends. *)
Inductive Result :=
| Return (b : bool)
| Raise (e : Exn).

Definition is_AudioStart (o : Out) : bool :=
  match o with AudioStart _ _ _ => true | _ => false end.
Definition is_AudioStop (o : Out) : bool :=
  match o with AudioStop => true | _ => false end.

Definition count (p : Out -> bool) (outs : list Out) : nat := length (filter p outs).

(* ================================================================== *)
(** ** The sentence segmenter (package [sentence_stream])               *)
(* ================================================================== *)

(** [SentenceBoundaryDetector] is an interface here.  [add_chunk] is a
    generator that mutates the detector while it is iterated: its value
    is the list of yielded sentences, each with the detector as it is at
    that [yield], and the detector once the generator is exhausted. *)
Class SentenceBoundaryDetector := {
  sbd : Type;
  sbd_new : sbd;
  add_chunk : sbd -> string -> list (string * sbd) * sbd;
  finish : sbd -> string * sbd
}.

(* ================================================================== *)
(** ** CloudStreamerEventHandler                                        *)
(* ================================================================== *)

Section Handler.

Context {SBD : SentenceBoundaryDetector}.
Variable U : Upstream.
Variable cli_args : CliArgs.

(** The attributes of [self] that [handle_event] reads and writes. *)
Record Handler := mkHandler {
  is_streaming : option bool;
  self_sbd : sbd;
  _synthesize : option Synthesize
}.

(** The [async for] of [_synthesize_with_engine]: the events written
    and the final value of [announced]. *)
Fixpoint relay_loop (send_start announced : bool) (evs : list AudioEvent)
  : list Out * bool :=
  match evs with
  | [] => ([], announced)
  | Format fmt :: r =>
      if send_start && negb announced then
        let '(outs, a) := relay_loop send_start true r in
        (AudioStart (rate fmt) (width fmt) (channels fmt) :: outs, a)
      else relay_loop send_start announced r
  | Chunk data :: r =>
      let '(outs, a) := relay_loop send_start announced r in
      (AudioChunk data (getattr_sample_rate cli_args) 2 1 :: outs, a)
  end.

(** The relay of one adapter event sequence that ends normally. *)
Definition relay (send_start send_stop : bool) (evs : list AudioEvent) : list Out :=
  let '(outs, announced) := relay_loop send_start false evs in
  outs ++ (if send_stop && announced then [AudioStop] else []).

Definition _synthesize_with_engine (text : string) (voice_name : option string)
    (send_start send_stop : bool) : list Out * option Exn :=
  match EngineRegistry.pick voice_name with
  | None => ([], Some TypeError_unpack_None)
  | Some (provider, norm_voice) =>
      match EngineRegistry.engine_stream provider U text norm_voice cli_args with
      | (evs, Some err) => (fst (relay_loop send_start false evs), Some err)
      | (evs, None) => (relay send_start send_stop evs, None)
      end
  end.

(** [(synthesize.voice.name if synthesize.voice else None) or getattr(...)]. *)
Definition one_shot_voice (synthesize : Synthesize) : string :=
  match match voice synthesize with Some v => name v | None => None end with
  | Some n => if Str.truthy n then n else getattr_voice cli_args
  | None => getattr_voice cli_args
  end.

(** [self._synthesize.voice.name if self._synthesize.voice else getattr(...)]. *)
Definition stream_voice (synthesize : Synthesize) : option string :=
  match voice synthesize with
  | Some v => name v
  | None => Some (getattr_voice cli_args)
  end.

(** [for sentence in self.sbd.add_chunk(stream_chunk.text)], over the
    sentences still to come; [final] is the detector after the last. *)
Fixpoint chunk_loop (h : Handler) (synthesize : Synthesize)
    (sentences : list (string * sbd)) (final : sbd) : Handler * list Out * Result :=
  match sentences with
  | [] => (mkHandler (is_streaming h) final (Some synthesize), [], Return true)
  | (sentence, at_yield) :: rest =>
      if Str.is_empty (Str.strip sentence) then
        (mkHandler (is_streaming h) at_yield (Some synthesize), [], Return true)
      else
        let synthesize := mkSynthesize sentence (voice synthesize) in
        match _synthesize_with_engine sentence (stream_voice synthesize) true true with
        | (outs, Some err) =>
            (mkHandler (is_streaming h) at_yield (Some synthesize), outs, Raise err)
        | (outs, None) =>
            let '(h', outs', res) := chunk_loop h synthesize rest final in
            (h', outs ++ outs', res)
        end
  end.

(** [not self.is_streaming], for [None], [False] and [True]. *)
Definition not_streaming (h : Handler) : bool :=
  match is_streaming h with Some true => false | _ => true end.

(** The one-shot branch: [Synthesize] while no stream is open. *)
Definition one_shot (h : Handler) (synthesize : Synthesize) : Handler * list Out * Result :=
  let text := collapse_lines (text synthesize) in
  if negb (Str.truthy text) then (h, [AudioStop], Return true)
  else
    match _synthesize_with_engine text (Some (one_shot_voice synthesize)) true true with
    | (outs, Some err) => (h, outs, Raise err)
    | (outs, None) => (h, outs, Return true)
    end.

(** The branches below the [streaming] check. *)
Definition streaming_event (h : Handler) (event : Event) : Handler * list Out * Result :=
  match event with
  | EvSynthesizeStart v =>
      (mkHandler (Some true) sbd_new (Some (mkSynthesize "" v)), [], Return true)
  | EvSynthesizeChunk chunk_text =>
      match _synthesize h with
      | None => (h, [], Raise AssertionError_)
      | Some synthesize =>
          let '(sentences, final) := add_chunk (self_sbd h) chunk_text in
          chunk_loop h synthesize sentences final
      end
  | EvSynthesizeStop =>
      match _synthesize h with
      | None => (h, [], Raise AssertionError_)
      | Some synthesize =>
          let '(final_text, s) := finish (self_sbd h) in
          let h1 := mkHandler (is_streaming h) s (Some synthesize) in
          let '(outs, err) :=
            if Str.truthy final_text
            then _synthesize_with_engine final_text (stream_voice synthesize) true true
            else ([], None) in
          match err with
          | Some e => (h1, outs, Raise e)
          | None =>
              (mkHandler (Some false) s (Some synthesize),
               outs ++ [SynthesizeStopped], Return true)
          end
      end
  | _ => (h, [], Return true)
  end.

(** The body of the [try] statement. *)
Definition handle_event_try (h : Handler) (event : Event) : Handler * list Out * Result :=
  match event, not_streaming h with
  | EvSynthesize synthesize, true => one_shot h synthesize
  | _, _ =>
      if negb (getattr_streaming cli_args) then (h, [], Return true)
      else streaming_event h event
  end.

(** [handle_event]: [Describe] is answered before the [try]; an
    exception of the body is reported to the client and raised again. *)
Definition handle_event (h : Handler) (event : Event) : Handler * list Out * Result :=
  match event with
  | EvDescribe => (h, [Info], Return true)
  | _ =>
      match handle_event_try h event with
      | (h', outs, Raise err) =>
          (h', outs ++ [Error (exn_text err) (exn_class err)], Raise err)
      | r => r
      end
  end.

(** The server loop: events are handled in order until one raises. *)
Fixpoint run (h : Handler) (events : list Event) : Handler * list Out * Result :=
  match events with
  | [] => (h, [], Return true)
  | event :: rest =>
      match handle_event h event with
      | (h', outs, Raise err) => (h', outs, Raise err)
      | (h', outs, Return _) =>
          let '(h'', outs', res) := run h' rest in
          (h'', outs ++ outs', res)
      end
  end.

(** The relayed form of one chunk. *)
Definition audio_chunk (data : bytes) : Out :=
  AudioChunk data (getattr_sample_rate cli_args) 2 1.


End Handler.

(** The parts of what [handle_event] and [run] give back. *)
Definition state_of {A B C : Type} (r : A * B * C) : A := fst (fst r).
Definition outs_of {A B C : Type} (r : A * B * C) : B := snd (fst r).
Definition result_of {A B C : Type} (r : A * B * C) : C := snd r.

Arguments Handler {SBD}.
Arguments mkHandler {SBD}.

(* ================================================================== *)
(** ** Sample collaborators for the concrete instances                  *)
(* ================================================================== *)

Module Sample.

(** A segmenter with one sentence per line: the detector holds the text
    after the last line feed. *)
Fixpoint lines_from (cur s : string) : list (string * string) * string :=
  match s with
  | EmptyString => ([], cur)
  | String c r =>
      if Ascii.eqb c Str.LF then
        let '(l, final) := lines_from EmptyString r in ((cur, r) :: l, final)
      else lines_from (cur ++ String c EmptyString)%string r
  end.

#[export] Instance line_segmenter : SentenceBoundaryDetector := {|
  sbd := string;
  sbd_new := EmptyString;
  add_chunk := fun st chunk => lines_from EmptyString (st ++ chunk)%string;
  finish := fun st => (Str.strip st, EmptyString)
|}.

(** A 44-byte RIFF/WAVE header: mono, 24000 Hz, 16 bits. *)
Definition wav_header : bytes :=
  [x52; x49; x46; x46;  x24; x00; x00; x00;  x57; x41; x56; x45;
   x66; x6d; x74; x20;  x10; x00; x00; x00;  x01; x00;  x01; x00;
   xc0; x5d; x00; x00;  x80; xbb; x00; x00;  x02; x00;  x10; x00;
   x64; x61; x74; x61;  x00; x00; x00; x00].

(** The same layout with every format field zero. *)
Definition wav_header_zero : bytes :=
  [x52; x49; x46; x46;  x24; x00; x00; x00;  x57; x41; x56; x45;
   x66; x6d; x74; x20;  x10; x00; x00; x00;  x01; x00;  x00; x00;
   x00; x00; x00; x00;  x00; x00; x00; x00;  x00; x00;  x00; x00;
   x64; x61; x74; x61;  x00; x00; x00; x00].

(** Stereo, 48000 Hz, 24 bits. *)
Definition wav_header_stereo : bytes :=
  [x52; x49; x46; x46;  x24; x00; x00; x00;  x57; x41; x56; x45;
   x66; x6d; x74; x20;  x10; x00; x00; x00;  x01; x00;  x02; x00;
   x80; xbb; x00; x00;  x00; x65; x04; x00;  x06; x00;  x18; x00;
   x64; x61; x74; x61;  x00; x00; x00; x00].

Definition pcm : bytes := [x01; x02; x03; x04; x05; x06].

(** 44 bytes that do not start with the signature. *)
Definition raw44 : bytes := repeat x07 44.

(** Google answers three responses, one without audio; OpenAI answers
    the header split over three fragments, then two payload bytes.  The
    voices that end in [tiny] get a ten-byte body. *)
Definition upstream : Upstream := {|
  google_streaming_synthesize := fun _ _ _ => [Some [x0a; x0b]; Some []; None; Some [x0c]];
  openai_iter_bytes := fun _ v _ =>
    if Str.contains "tiny" v then [firstn 10 wav_header]
    else [firstn 20 wav_header; []; skipn 20 wav_header ++ firstn 4 pcm; skipn 4 pcm];
  getenv_OPENAI_TTS_MODEL := None
|}.

Definition cli : CliArgs := mkCliArgs None None (Some true).

(** The lines of a text chunk, each ended by a line feed. *)
Fixpoint lines (l : list string) : string :=
  match l with
  | [] => EmptyString
  | s :: r => (s ++ String Str.LF (lines r))%string
  end.

Definition idle : Handler := mkHandler None EmptyString None.

Definition streaming (v : string) : Handler :=
  mkHandler (Some true) EmptyString (Some (mkSynthesize "" (Some (mkVoice (Some v))))).

End Sample.

(* ================================================================== *)
(** ** More string operations                                           *)
(* ================================================================== *)

Module StrMore.

(** Every character of [s] satisfies [p]. *)
Fixpoint all_chars (p : ascii -> bool) (s : string) : bool :=
  match s with
  | EmptyString => true
  | String c r => p c && all_chars p r
  end.

(** [s] is empty or white space only. *)
Definition all_space (s : string) : bool := all_chars Str.is_space s.

(** [c in s] for a character [c]. *)
Fixpoint has_char (c : ascii) (s : string) : bool :=
  match s with
  | EmptyString => false
  | String a r => Ascii.eqb a c || has_char c r
  end.

(** [s.replace(a, b, 1)] for characters [a] and [b]. *)
Fixpoint replace_first (a b : ascii) (s : string) : string :=
  match s with
  | EmptyString => EmptyString
  | String c r => if Ascii.eqb c a then String b r else String c (replace_first a b r)
  end.

(** [c] is not a line boundary of [str.splitlines]. *)
Definition not_linebreak (c : ascii) : bool := negb (Str.is_linebreak c).

End StrMore.

(* ================================================================== *)
(** ** __main__.py: the advertised voices                               *)
(* ================================================================== *)

Module Main.

(** [wyoming.info.Attribution]. *)
Record Attribution := mkAttribution { attr_name : string; attr_url : string }.

(** [wyoming.info.TtsVoice] as [main] fills it ([installed] is [True],
    [version] and [speakers] are [None]). *)
Record TtsVoice := mkTtsVoice {
  tts_name : string;
  tts_description : string;
  tts_attribution : Attribution;
  tts_languages : list string
}.

(** One entry of voices.json: [voices_data[key]["voices"]] and
    [voices_data[key]["languages"]]. *)
Record ProviderVoices := mkProviderVoices {
  pv_voices : list string;
  pv_languages : list string
}.

Definition google_attribution : Attribution :=
  mkAttribution "Google" "https://cloud.google.com/text-to-speech/docs/chirp3-hd".

Definition openai_attribution : Attribution :=
  mkAttribution "OpenAI" "https://platform.openai.com/docs/guides/text-to-speech".

(** [language.replace('_', '-', 1) + infix + voice]. *)
Definition voice_name_of (infix language voice : string) : string :=
  (StrMore.replace_first "_" "-" language ++ infix ++ voice)%string.

(** The body of the innermost loop.  [attribution] is the local variable
    as the earlier iterations left it ([None]: not yet bound); the result
    is the appended voice and the variable afterwards, or [None] for the
    [UnboundLocalError] of reading it unbound. *)
Definition make_voice (key voice language : string) (attribution : option Attribution)
  : option (TtsVoice * option Attribution) :=
  let '(voice_name, voice_description, attribution) :=
    if String.eqb key "google" then
      (voice_name_of "-Chirp3-HD-" language voice, ("google_" ++ voice)%string,
       Some google_attribution)
    else if String.eqb key "openai" then
      (voice_name_of "-openai-" language voice, ("openai_" ++ voice)%string,
       Some openai_attribution)
    else (EmptyString, EmptyString, attribution) in
  match attribution with
  | None => None
  | Some a => Some (mkTtsVoice voice_name voice_description a [language], attribution)
  end.

(** [for language in voices_data[key]["languages"]]. *)
Fixpoint over_languages (key voice : string) (languages : list string)
    (attribution : option Attribution) : option (list TtsVoice * option Attribution) :=
  match languages with
  | [] => Some ([], attribution)
  | language :: rest =>
      match make_voice key voice language attribution with
      | None => None
      | Some (v, attribution) =>
          match over_languages key voice rest attribution with
          | None => None
          | Some (vs, attribution) => Some (v :: vs, attribution)
          end
      end
  end.

(** [for voice in voices_data[key]["voices"]]. *)
Fixpoint over_voices (key : string) (voices languages : list string)
    (attribution : option Attribution) : option (list TtsVoice * option Attribution) :=
  match voices with
  | [] => Some ([], attribution)
  | voice :: rest =>
      match over_languages key voice languages attribution with
      | None => None
      | Some (vs, attribution) =>
          match over_voices key rest languages attribution with
          | None => None
          | Some (vs', attribution) => Some (vs ++ vs', attribution)
          end
      end
  end.

(** [for key in voices_data.keys()]. *)
Fixpoint over_keys (voices_data : list (string * ProviderVoices))
    (attribution : option Attribution) : option (list TtsVoice * option Attribution) :=
  match voices_data with
  | [] => Some ([], attribution)
  | (key, pv) :: rest =>
      match over_voices key (pv_voices pv) (pv_languages pv) attribution with
      | None => None
      | Some (vs, attribution) =>
          match over_keys rest attribution with
          | None => None
          | Some (vs', attribution) => Some (vs ++ vs', attribution)
          end
      end
  end.

(** The list [voices] that [main] builds from voices.json, before it is
    sorted for the service description. *)
Definition build_voices (voices_data : list (string * ProviderVoices))
  : option (list TtsVoice) :=
  match over_keys voices_data None with
  | None => None
  | Some (vs, _) => Some vs
  end.

(** The number of voice and language pairs of the catalog. *)
Fixpoint catalog_size (voices_data : list (string * ProviderVoices)) : nat :=
  match voices_data with
  | [] => 0%nat
  | (_, pv) :: rest => (length (pv_voices pv) * length (pv_languages pv) + catalog_size rest)%nat
  end.

(** Every key is one of the two providers. *)
Definition known_key (key : string) : bool :=
  String.eqb key "google" || String.eqb key "openai".

(** The registry has an engine for the voice's name. *)
Definition routable (tv : TtsVoice) : Prop :=
  EngineRegistry.pick (Some (tts_name tv)) <> None.

(** A small catalog. *)
Definition sample_catalog : list (string * ProviderVoices) :=
  [("google", mkProviderVoices ["Charon"; "Kore"] ["en_US"; "de_DE"]);
   ("openai", mkProviderVoices ["alloy"] ["en_US"])].

End Main.

(** [(voice_name or "")]: the voice name [pick] works on. *)
Definition requested_name (voice_name : option string) : string :=
  match voice_name with Some s => s | None => EmptyString end.

(** The non-empty [audio_content] of the responses, in order. *)
Fixpoint audio_contents (responses : list (option bytes)) : list bytes :=
  match responses with
  | [] => []
  | Some d :: r => if truthy d then d :: audio_contents r else audio_contents r
  | None :: r => audio_contents r
  end.

(** All the audio bytes of the responses. *)
Fixpoint all_audio (responses : list (option bytes)) : bytes :=
  match responses with
  | [] => []
  | Some d :: r => d ++ all_audio r
  | None :: r => all_audio r
  end.

(** The audio bytes of the written [AudioChunk] events, in order. *)
Fixpoint out_audio (outs : list Out) : list bytes :=
  match outs with
  | [] => []
  | AudioChunk audio _ _ _ :: r => audio :: out_audio r
  | _ :: r => out_audio r
  end.

Definition is_Error (o : Out) : bool :=
  match o with Error _ _ => true | _ => false end.

Definition is_SynthesizeStopped (o : Out) : bool :=
  match o with SynthesizeStopped => true | _ => false end.

(* ================================================================== *)
(** ** Facts about bytes                                                *)
(* ================================================================== *)

Module BytesFacts.

Lemma eqb_eq (x y : bytes) : Bytes.eqb x y = true <-> x = y.
Proof.
  revert y; induction x as [|a x IH]; intros [|b y]; simpl;
    try (split; [discriminate | discriminate]); try tauto.
  rewrite andb_true_iff, IH.
  split.
  - intros [Hab ->]. apply Byte.byte_dec_bl in Hab. now subst.
  - intros E; injection E as -> ->. split; [apply Byte.byte_dec_lb|]; reflexivity.
Qed.

Lemma truthy_length (b : bytes) : truthy b = true <-> (0 < length b)%nat.
Proof. destruct b; simpl; split; intros; try lia; try discriminate; reflexivity. Qed.

Lemma truthy_false (b : bytes) : truthy b = false <-> b = [].
Proof. destruct b; simpl; split; intros; congruence. Qed.

End BytesFacts.
Import BytesFacts.

(* ================================================================== *)
(** ** Theory of the container header detector                          *)
(* ================================================================== *)

Module WavFacts.
Import Wav.

Lemma events_loop (frags : list bytes) :
  events frags = loop (unresolved [] 24000 1 2) frags.
Proof. reflexivity. Qed.

(** The signature: [RIFF] at offset 0 and [WAVE] at offset 8. *)
Lemma has_magic_spec (buf : bytes) :
  has_magic buf = true <-> slice 0 4 buf = RIFF /\ slice 8 12 buf = WAVE.
Proof. unfold has_magic. now rewrite andb_true_iff, !eqb_eq. Qed.

Lemma parse_short (buf : bytes) :
  (length buf < 44)%nat -> try_parse_wav_header buf = mkParse false 0 None None None.
Proof.
  intros H. unfold try_parse_wav_header.
  apply Nat.ltb_lt in H. now rewrite H.
Qed.

Lemma parse_ok (buf : bytes) :
  (44 <= length buf)%nat -> ok (try_parse_wav_header buf) = true.
Proof.
  intros H. unfold try_parse_wav_header.
  destruct (Nat.ltb_spec (length buf) 44); [lia|].
  now destruct (negb (has_magic buf)).
Qed.

Lemma parse_offset_le (buf : bytes) :
  (data_offset (try_parse_wav_header buf) <= 44)%nat.
Proof.
  unfold try_parse_wav_header.
  destruct (length buf <? 44)%nat; simpl; [lia|].
  destruct (negb (has_magic buf)); simpl; lia.
Qed.

Lemma slice_app (i j : nat) (b x : bytes) :
  (j <= length b)%nat -> slice i j (b ++ x) = slice i j b.
Proof.
  intros H. unfold slice.
  destruct (Nat.le_gt_cases i j) as [Hij|Hij].
  - rewrite skipn_app, firstn_app, length_skipn.
    replace (j - i - (length b - i))%nat with 0%nat by lia.
    now rewrite firstn_O, app_nil_r.
  - now replace (j - i)%nat with 0%nat by lia.
Qed.

(** The parse only looks at the first 44 bytes. *)
Lemma parse_app (b x : bytes) :
  (44 <= length b)%nat -> try_parse_wav_header (b ++ x) = try_parse_wav_header b.
Proof.
  intros H. unfold try_parse_wav_header, has_magic.
  rewrite !slice_app by lia.
  destruct (Nat.ltb_spec (length (b ++ x)) 44) as [L|L];
    [rewrite length_app in L; lia|].
  destruct (Nat.ltb_spec (length b) 44); [lia|reflexivity].
Qed.

(** After the header, every non-empty fragment is forwarded as it is. *)
Lemma loop_resolved (st : State) (frags : list bytes) :
  got_header st = true -> loop st frags = map Chunk (filter truthy frags).
Proof.
  intros G. induction frags as [|c rest IH]; simpl; [reflexivity|].
  destruct (truthy c); simpl; [|exact IH].
  rewrite G; simpl. now rewrite IH.
Qed.

Lemma concat_filter_truthy (frags : list bytes) :
  concat (filter truthy frags) = concat frags.
Proof.
  induction frags as [|c rest IH]; simpl; [reflexivity|].
  destruct c; simpl; [exact IH|]. now rewrite IH.
Qed.

(** While fewer than 44 bytes have arrived, fragments only grow the
    buffer. *)
Lemma loop_buffering (pre rest : list bytes) (buf : bytes) (r c w : Z) :
  (length (buf ++ concat pre) < 44)%nat ->
  loop (unresolved buf r c w) (pre ++ rest)
  = loop (unresolved (buf ++ concat pre) r c w) rest.
Proof.
  revert buf. induction pre as [|x pre IH]; intros buf H; simpl in *.
  - now rewrite app_nil_r.
  - destruct x as [|b x]; simpl.
    + apply IH. exact H.
    + rewrite parse_short; simpl.
      * rewrite IH by (rewrite <- app_assoc; exact H).
        now rewrite <- app_assoc.
      * rewrite !length_app in *. simpl in *. lia.
Qed.

Lemma loop_short (frags : list bytes) (buf : bytes) (r c w : Z) :
  (length (buf ++ concat frags) < 44)%nat ->
  loop (unresolved buf r c w) frags = [].
Proof.
  intros H.
  rewrite <- (app_nil_r frags), loop_buffering by exact H.
  reflexivity.
Qed.

(** The step that resolves the header. *)
Lemma loop_resolving (x : bytes) (rest : list bytes) (buf : bytes) (r c w : Z) :
  (length buf < 44)%nat -> (44 <= length (buf ++ x))%nat ->
  let st := unresolved buf r c w in
  let p := try_parse_wav_header (buf ++ x) in
  loop st (x :: rest)
  = Format (announced_format st p)
      :: leading (skipn (data_offset p) (buf ++ x))
      ++ map Chunk (filter truthy rest).
Proof.
  intros Hb Hx st p. simpl.
  assert (Tx : truthy x = true).
  { apply truthy_length. rewrite length_app in Hx. lia. }
  rewrite Tx; simpl. fold p.
  unfold p at 1. rewrite parse_ok by exact Hx. simpl.
  rewrite loop_resolved by reflexivity. reflexivity.
Qed.

(** The whole stream, whatever the split: nothing below 44 bytes, and
    from 44 bytes on one format and the bytes past the offset. *)
Lemma loop_total (frags : list bytes) (buf : bytes) (r c w : Z) :
  (length buf < 44)%nat -> (44 <= length (buf ++ concat frags))%nat ->
  let st := unresolved buf r c w in
  let p := try_parse_wav_header (buf ++ concat frags) in
  exists chunks,
    loop st frags = Format (announced_format st p) :: map Chunk chunks
    /\ concat chunks = skipn (data_offset p) (buf ++ concat frags)
    /\ Forall (fun d => d <> []) chunks.
Proof.
  revert buf. induction frags as [|x rest IH]; intros buf Hb Ht st p;
    subst st p; cbn [concat] in *.
  - rewrite app_nil_r in Ht. lia.
  - destruct (Nat.lt_ge_cases (length (buf ++ x)) 44) as [S|S].
    + destruct (IH (buf ++ x) S) as (chunks & E & C & F).
      { now rewrite <- app_assoc. }
      exists chunks. rewrite <- app_assoc in *.
      split; [|split; assumption].
      change (announced_format (unresolved (buf ++ x) r c w))
        with (announced_format (unresolved buf r c w)) in E.
      rewrite <- E. destruct x as [|b x].
      * simpl. now rewrite app_nil_r.
      * cbn [loop truthy negb]. unfold unresolved at 1. cbn [got_header negb header_buf].
        now rewrite parse_short.
    + pose proof (loop_resolving x rest buf r c w Hb S) as E. cbv zeta in E.
      rewrite (app_assoc buf x). rewrite (parse_app (buf ++ x)) by exact S.
      set (p := try_parse_wav_header (buf ++ x)) in *.
      pose proof (parse_offset_le (buf ++ x)) as O. fold p in O.
      exists (filter truthy [skipn (data_offset p) (buf ++ x)] ++ filter truthy rest).
      split; [|split].
      * rewrite E. f_equal. rewrite map_app. f_equal.
        unfold leading. simpl. now destruct (truthy _).
      * rewrite concat_app, !concat_filter_truthy. cbn [concat]. rewrite app_nil_r.
        rewrite (skipn_app (data_offset p) (buf ++ x)).
        replace (data_offset p - length (buf ++ x))%nat with 0%nat by lia.
        reflexivity.
      * apply Forall_app; split; apply Forall_forall; intros d Hd;
          apply filter_In in Hd; destruct Hd as [_ Hd]; destruct d; discriminate.
Qed.

End WavFacts.

(* ================================================================== *)
(** ** Little-endian fields at fixed offsets                            *)
(* ================================================================== *)

Module Fields.

Lemma skipn_nth (i : nat) (buf : bytes) :
  (i < length buf)%nat -> skipn i buf = nth i buf x00 :: skipn (S i) buf.
Proof.
  revert buf. induction i as [|i IH]; intros [|b buf] H; simpl in *; try lia.
  - reflexivity.
  - apply IH. lia.
Qed.

Lemma slice_step (i j : nat) (buf : bytes) :
  (i < j)%nat -> (i < length buf)%nat ->
  slice i j buf = nth i buf x00 :: slice (S i) j buf.
Proof.
  intros Hij Hi. unfold slice.
  rewrite (skipn_nth i buf Hi).
  replace (j - i)%nat with (S (j - S i)) by lia.
  reflexivity.
Qed.

Lemma slice_empty (i : nat) (buf : bytes) : slice i i buf = [].
Proof. unfold slice. now rewrite Nat.sub_diag. Qed.

(** A 16-bit little-endian field. *)
Lemma le16 (i : nat) (buf : bytes) :
  (i + 2 <= length buf)%nat ->
  from_bytes_little (slice i (i + 2) buf) = byte_at i buf + 256 * byte_at (i + 1) buf.
Proof.
  intros H.
  replace (i + 2)%nat with (S (S i)) by lia.
  replace (i + 1)%nat with (S i) by lia.
  rewrite !slice_step, slice_empty by lia.
  unfold byte_at. cbn [from_bytes_little]. lia.
Qed.

(** A 32-bit little-endian field. *)
Lemma le32 (i : nat) (buf : bytes) :
  (i + 4 <= length buf)%nat ->
  from_bytes_little (slice i (i + 4) buf)
  = byte_at i buf + 256 * byte_at (i + 1) buf
    + 65536 * byte_at (i + 2) buf + 16777216 * byte_at (i + 3) buf.
Proof.
  intros H.
  replace (i + 4)%nat with (S (S (S (S i)))) by lia.
  replace (i + 1)%nat with (S i) by lia.
  replace (i + 2)%nat with (S (S i)) by lia.
  replace (i + 3)%nat with (S (S (S i))) by lia.
  rewrite !slice_step, slice_empty by lia.
  unfold byte_at. cbn [from_bytes_little]. lia.
Qed.

End Fields.

(* ================================================================== *)
(** ** The provider adapters' event sequences                           *)
(* ================================================================== *)

Module StreamFacts.
Import Wav WavFacts.

Lemma count_format_chunks (chunks : list bytes) : count_format (map Chunk chunks) = 0%nat.
Proof. unfold count_format. induction chunks; simpl; auto. Qed.

Lemma chunk_payloads_chunks (chunks : list bytes) : chunk_payloads (map Chunk chunks) = chunks.
Proof. induction chunks; simpl; congruence. Qed.

Lemma format_then_chunks_count (evs : list AudioEvent) :
  format_then_chunks evs -> count_format evs = 1%nat.
Proof.
  intros (fmt & chunks & ->). unfold count_format. simpl.
  f_equal. apply count_format_chunks.
Qed.

Lemma google_forward_chunks (responses : list (option bytes)) :
  exists chunks, GoogleTTSEngine.forward responses = map Chunk chunks.
Proof.
  induction responses as [|[d|] r [chunks IH]]; simpl.
  - now exists [].
  - destruct (truthy d); [exists (d :: chunks); simpl; now rewrite IH | now exists chunks].
  - now exists chunks.
Qed.

(** The Google adapter always announces its format first, once. *)
Lemma google_format_then_chunks (U : Upstream) (text voice_name : string) (cli : CliArgs) :
  format_then_chunks (fst (GoogleTTSEngine.stream U text voice_name cli))
  /\ snd (GoogleTTSEngine.stream U text voice_name cli) = None.
Proof.
  split; [|reflexivity]. unfold GoogleTTSEngine.stream; simpl.
  destruct (google_forward_chunks
              (google_streaming_synthesize U voice_name
                 (GoogleTTSEngine._language_code_from_voice voice_name) text))
    as [chunks E].
  exists (mkAudioFormat (getattr_sample_rate cli) 2 1), chunks. now rewrite E.
Qed.

(** The OpenAI adapter yields nothing below 44 bytes and one format
    followed by chunks from 44 bytes on. *)
Lemma events_cases (frags : list bytes) :
  ((length (concat frags) < 44)%nat /\ events frags = [])
  \/ ((44 <= length (concat frags))%nat /\ format_then_chunks (events frags)).
Proof.
  destruct (Nat.lt_ge_cases (length (concat frags)) 44) as [S|S].
  - left. split; [exact S|]. apply (loop_short frags [] 24000 1 2). exact S.
  - right. split; [exact S|].
    destruct (loop_total frags [] 24000 1 2) as (chunks & E & _); simpl; try lia.
    eexists _, chunks. exact E.
Qed.

Lemma events_empty_iff (frags : list bytes) :
  events frags = [] <-> (length (concat frags) < 44)%nat.
Proof.
  destruct (events_cases frags) as [[S E]|[S (fmt & chunks & E)]].
  - tauto.
  - rewrite E. split; [discriminate | lia].
Qed.

End StreamFacts.

(* ================================================================== *)
(** ** Specified properties of the container header detector           *)
(* ================================================================== *)

(** C5. A buffer of at least 44 bytes that carries the signature resolves
    with payload offset 44, the channel count read little-endian from
    offsets 22-23, the sample rate from offsets 24-27 and the bits per
    sample from offsets 34-35; the sample width is the bits divided by 8;
    the announced format keeps 24000 Hz, mono, 2 bytes wherever the
    field (or the derived width) is zero. *)
Theorem C5_header_fields (frags : list bytes) (buf : bytes) :
  concat frags = buf ->
  (44 <= length buf)%nat ->
  Wav.has_magic buf = true ->
  let ch := byte_at 22 buf + 256 * byte_at 23 buf in
  let sr := byte_at 24 buf + 256 * byte_at 25 buf
            + 65536 * byte_at 26 buf + 16777216 * byte_at 27 buf in
  let bits := byte_at 34 buf + 256 * byte_at 35 buf in
  Wav.try_parse_wav_header buf
  = Wav.mkParse true 44 (Some sr) (Some ch) (if bits =? 0 then None else Some (bits / 8))
  /\ hd_error (Wav.events frags)
     = Some (Format (mkAudioFormat (if sr =? 0 then 24000 else sr)
                                   (if bits / 8 =? 0 then 2 else bits / 8)
                                   (if ch =? 0 then 1 else ch))).
Proof.
  intros Hc Hl Hm ch sr bits.
  assert (P : Wav.try_parse_wav_header buf
              = Wav.mkParse true 44 (Some sr) (Some ch)
                  (if bits =? 0 then None else Some (bits / 8))).
  { unfold Wav.try_parse_wav_header. rewrite Hm.
    destruct (Nat.ltb_spec (length buf) 44); [lia|]. cbn [negb].
    rewrite (Fields.le16 22), (Fields.le32 24), (Fields.le16 34) by lia.
    reflexivity. }
  split; [exact P|].
  destruct (WavFacts.loop_total frags [] 24000 1 2) as (chunks & E & _);
    [simpl; lia | simpl; rewrite Hc; exact Hl |].
  cbn [app] in E. rewrite Hc in E.
  rewrite WavFacts.events_loop, E, P.
  unfold Wav.announced_format; cbn [hd_error Wav.sr Wav.ch Wav.width_bytes or_default
    Wav.unresolved Wav.sample_rate Wav.st_channels Wav.st_width].
  do 3 f_equal.
  destruct (Z.eqb_spec bits 0) as [B|B]; [rewrite B; reflexivity | reflexivity].
Qed.

Lemma C5_header_fields_witness :
  Wav.try_parse_wav_header (Sample.wav_header_stereo ++ Sample.pcm)
  = Wav.mkParse true 44 (Some 48000) (Some 2) (Some 3)
  /\ hd_error (Wav.events [firstn 20 Sample.wav_header_stereo;
                           skipn 20 Sample.wav_header_stereo ++ Sample.pcm])
     = Some (Format (mkAudioFormat 48000 3 2)).
Proof.
  apply (C5_header_fields [firstn 20 Sample.wav_header_stereo;
                           skipn 20 Sample.wav_header_stereo ++ Sample.pcm]
                          (Sample.wav_header_stereo ++ Sample.pcm)).
  - reflexivity.
  - apply Nat.leb_le. reflexivity.
  - reflexivity.
Defined.

(** C6. While the fed fragments add up to fewer than 44 bytes, every
    parse of what has accumulated is "not resolved" and the stream emits
    nothing; the fragment that brings the buffer to 44 bytes or more
    without the signature resolves it at once with payload offset 0 and
    no format field, so that the fallback format is announced unchanged
    and the whole buffer is payload. *)
Theorem C6_short_or_unsigned :
  (forall frags : list bytes,
      (length (concat frags) < 44)%nat ->
      (forall n, Wav.try_parse_wav_header (concat (firstn n frags))
                 = Wav.mkParse false 0 None None None)
      /\ Wav.events frags = [])
  /\ (forall (pre : list bytes) (x : bytes) (post : list bytes),
         (length (concat pre) < 44)%nat ->
         (44 <= length (concat pre ++ x))%nat ->
         Wav.has_magic (concat pre ++ x) = false ->
         Wav.try_parse_wav_header (concat pre ++ x) = Wav.mkParse true 0 None None None
         /\ Wav.events (pre ++ x :: post)
            = Format (mkAudioFormat 24000 2 1)
                :: Chunk (concat pre ++ x) :: map Chunk (filter truthy post)).
Proof.
  split.
  - intros frags H. split.
    + intros n. apply WavFacts.parse_short.
      rewrite <- (firstn_skipn n frags), concat_app, length_app in H. lia.
    + apply (WavFacts.loop_short frags [] 24000 1 2). exact H.
  - intros pre x post Hp Hx Hm.
    assert (P : Wav.try_parse_wav_header (concat pre ++ x)
                = Wav.mkParse true 0 None None None).
    { unfold Wav.try_parse_wav_header. rewrite Hm.
      destruct (Nat.ltb_spec (length (concat pre ++ x)) 44); [lia | reflexivity]. }
    split; [exact P|].
    rewrite WavFacts.events_loop.
    rewrite (WavFacts.loop_buffering pre (x :: post) [] 24000 1 2) by exact Hp.
    cbn [app].
    rewrite (WavFacts.loop_resolving x post (concat pre) 24000 1 2 Hp Hx).
    rewrite P. unfold Wav.leading. cbn [skipn Wav.data_offset].
    assert (T : truthy (concat pre ++ x) = true).
    { apply truthy_length. lia. }
    rewrite T. reflexivity.
Qed.

Lemma C6_short_or_unsigned_witness :
  Wav.events [firstn 10 Sample.wav_header; firstn 30 Sample.raw44] = []
  /\ Wav.events [firstn 40 Sample.raw44; []; skipn 40 Sample.raw44 ++ Sample.pcm; Sample.pcm]
     = [Format (mkAudioFormat 24000 2 1);
        Chunk (Sample.raw44 ++ Sample.pcm); Chunk Sample.pcm].
Proof.
  destruct C6_short_or_unsigned as [S R]. split.
  - apply (S [firstn 10 Sample.wav_header; firstn 30 Sample.raw44]).
    apply Nat.ltb_lt. reflexivity.
  - apply (R [firstn 40 Sample.raw44; []] (skipn 40 Sample.raw44 ++ Sample.pcm) [Sample.pcm]).
    + apply Nat.ltb_lt. reflexivity.
    + apply Nat.leb_le. reflexivity.
    + reflexivity.
Defined.

(** C7. When the fragment [x] brings the buffer to 44 bytes, the bytes
    of the buffer from the payload offset on are yielded right after the
    format as one chunk (none when there are none), and every later
    non-empty fragment follows as it came; so, however the body is split,
    the chunks put together are the body from the payload offset on, each
    byte once.  A 44-byte header with the signature, 1 channel, 24000 Hz
    and 16 bits followed by a payload yields the format (24000, 2, 1) and
    chunks that put together are that payload. *)
Theorem C7_payload_once :
  (forall (pre : list bytes) (x : bytes) (post : list bytes),
      (length (concat pre) < 44)%nat ->
      (44 <= length (concat pre ++ x))%nat ->
      let buf := concat pre ++ x in
      let p := Wav.try_parse_wav_header buf in
      Wav.events (pre ++ x :: post)
      = Format (Wav.announced_format Wav.initial p)
          :: Wav.leading (skipn (Wav.data_offset p) buf)
          ++ map Chunk (filter truthy post))
  /\ (forall frags : list bytes,
         (44 <= length (concat frags))%nat ->
         count_format (Wav.events frags) = 1%nat
         /\ concat (chunk_payloads (Wav.events frags))
            = skipn (Wav.data_offset (Wav.try_parse_wav_header (concat frags)))
                    (concat frags))
  /\ (forall (frags : list bytes) (hdr payload : bytes),
         concat frags = hdr ++ payload ->
         length hdr = 44%nat ->
         Wav.has_magic hdr = true ->
         from_bytes_little (slice 22 24 hdr) = 1 ->
         from_bytes_little (slice 24 28 hdr) = 24000 ->
         from_bytes_little (slice 34 36 hdr) = 16 ->
         exists chunks,
           Wav.events frags = Format (mkAudioFormat 24000 2 1) :: map Chunk chunks
           /\ concat chunks = payload).
Proof.
  split; [|split].
  - intros pre x post Hp Hx buf p. subst buf p.
    rewrite WavFacts.events_loop.
    rewrite (WavFacts.loop_buffering pre (x :: post) [] 24000 1 2) by exact Hp.
    cbn [app].
    exact (WavFacts.loop_resolving x post (concat pre) 24000 1 2 Hp Hx).
  - intros frags H.
    destruct (WavFacts.loop_total frags [] 24000 1 2) as (chunks & E & C & _);
      [simpl; lia | exact H |].
    cbn [app] in E, C. rewrite WavFacts.events_loop, E. split.
    + apply StreamFacts.format_then_chunks_count. now eexists _, chunks.
    + cbn [chunk_payloads]. now rewrite StreamFacts.chunk_payloads_chunks.
  - intros frags hdr payload Hc Hl Hm Hch Hsr Hbits.
    destruct (WavFacts.loop_total frags [] 24000 1 2) as (chunks & E & C & _);
      [simpl; lia | simpl; rewrite Hc, length_app; lia |].
    cbn [app] in E, C. rewrite Hc in E, C.
    rewrite WavFacts.parse_app in E, C by lia.
    assert (P : Wav.try_parse_wav_header hdr
                = Wav.mkParse true 44 (Some 24000) (Some 1) (Some 2)).
    { unfold Wav.try_parse_wav_header. rewrite Hm, Hch, Hsr, Hbits, Hl. reflexivity. }
    rewrite P in E, C. exists chunks. split.
    + exact E.
    + rewrite C. cbn [Wav.data_offset]. rewrite skipn_app, <- Hl, skipn_all, Nat.sub_diag.
      reflexivity.
Qed.

Lemma C7_payload_once_witness :
  Wav.events [firstn 20 Sample.wav_header; [];
              skipn 20 Sample.wav_header ++ firstn 4 Sample.pcm; skipn 4 Sample.pcm]
  = [Format (mkAudioFormat 24000 2 1);
     Chunk (firstn 4 Sample.pcm); Chunk (skipn 4 Sample.pcm)]
  /\ concat (chunk_payloads (Wav.events [firstn 5 Sample.wav_header;
                                         skipn 5 Sample.wav_header ++ Sample.pcm]))
     = Sample.pcm
  /\ exists chunks,
       Wav.events [firstn 43 Sample.wav_header; skipn 43 Sample.wav_header; Sample.pcm]
       = Format (mkAudioFormat 24000 2 1) :: map Chunk chunks
       /\ concat chunks = Sample.pcm.
Proof.
  destruct C7_payload_once as (A & B & C). split; [|split].
  - apply (A [firstn 20 Sample.wav_header; []]
             (skipn 20 Sample.wav_header ++ firstn 4 Sample.pcm) [skipn 4 Sample.pcm]).
    + apply Nat.ltb_lt. reflexivity.
    + apply Nat.leb_le. reflexivity.
  - apply (B [firstn 5 Sample.wav_header; skipn 5 Sample.wav_header ++ Sample.pcm]).
    apply Nat.leb_le. reflexivity.
  - apply (C [firstn 43 Sample.wav_header; skipn 43 Sample.wav_header; Sample.pcm]
             Sample.wav_header Sample.pcm); reflexivity.
Defined.

(* ================================================================== *)
(** ** Substring tests under [strip] and [lower]                        *)
(* ================================================================== *)

Module StrFacts.
Import Str.

Lemma is_space_lower (c : ascii) : is_space (lower_char c) = is_space c.
Proof. destruct c as [[] [] [] [] [] [] [] []]; reflexivity. Qed.

Lemma lower_lstrip (s : string) : lower (lstrip s) = lstrip (lower s).
Proof.
  induction s as [|c r IH]; simpl; [reflexivity|].
  rewrite is_space_lower. destruct (is_space c); [exact IH | reflexivity].
Qed.

Lemma lower_rstrip (s : string) : lower (rstrip s) = rstrip (lower s).
Proof.
  induction s as [|c r IH]; simpl; [reflexivity|].
  rewrite <- IH, is_space_lower.
  destruct (rstrip r); simpl; [destruct (is_space c)|]; reflexivity.
Qed.

Lemma lower_strip (s : string) : lower (strip s) = strip (lower s).
Proof. unfold strip. now rewrite lower_rstrip, lower_lstrip. Qed.

Lemma eqb_space_differs (a c : ascii) :
  is_space a = true -> is_space c = false -> Ascii.eqb c a = false.
Proof.
  intros Ha Hc. destruct (Ascii.eqb_spec c a) as [->|]; congruence.
Qed.

Lemma contains_lstrip (t s : string) :
  starts_nonspace t = true -> contains t (lstrip s) = contains t s.
Proof.
  destruct t as [|c t']; [discriminate|]. simpl. intros Hc.
  apply negb_true_iff in Hc.
  induction s as [|a r IH]; [reflexivity|].
  cbn [lstrip]. destruct (is_space a) eqn:Ha; [|reflexivity].
  rewrite IH. cbn [contains startswith].
  now rewrite (eqb_space_differs a c Ha Hc).
Qed.

Lemma startswith_nonempty_nil (t : string) :
  ends_nonspace t = true -> startswith t EmptyString = false.
Proof. destruct t; [discriminate | reflexivity]. Qed.

Lemma startswith_rstrip (t s : string) :
  ends_nonspace t = true -> startswith t (rstrip s) = startswith t s.
Proof.
  revert t. induction s as [|a r IH]; intros t Ht; [reflexivity|].
  destruct t as [|c t']; [discriminate|].
  assert (T : t' = EmptyString \/ ends_nonspace t' = true).
  { destruct t'; [now left | right; exact Ht]. }
  cbn [rstrip]. destruct (rstrip r) as [|b r'] eqn:R.
  - destruct (is_space a) eqn:Ha.
    + cbn [startswith]. destruct T as [->|T].
      * cbn in Ht. apply negb_true_iff in Ht.
        now rewrite (eqb_space_differs a c Ha Ht).
      * rewrite <- (IH t' T), (startswith_nonempty_nil t' T).
        now rewrite andb_false_r.
    + cbn [startswith]. destruct T as [->|T]; [reflexivity|].
      now rewrite <- (IH t' T).
  - cbn [startswith]. destruct T as [->|T]; [reflexivity|].
    now rewrite <- (IH t' T).
Qed.

Lemma contains_rstrip (t s : string) :
  ends_nonspace t = true -> contains t (rstrip s) = contains t s.
Proof.
  intros Ht. induction s as [|a r IH]; [reflexivity|].
  cbn [contains]. rewrite <- IH, <- (startswith_rstrip t (String a r) Ht).
  cbn [rstrip]. destruct (rstrip r) as [|b r'] eqn:R.
  - destruct (is_space a); cbn [contains]; [|reflexivity].
    now rewrite (startswith_nonempty_nil t Ht).
  - reflexivity.
Qed.

(** A needle with no white space at its ends is found in the stripped,
    lowercased text exactly when it is found in the lowercased text. *)
Lemma contains_lower_strip (t s : string) :
  starts_nonspace t = true -> ends_nonspace t = true ->
  contains t (lower (strip s)) = contains t (lower s).
Proof.
  intros Hs He. rewrite lower_strip. unfold strip.
  now rewrite contains_rstrip, contains_lstrip.
Qed.

Lemma pick_unroutable (voice_name : string) :
  contains "-chirp3-hd-" (lower voice_name) = false ->
  contains "-openai-" (lower voice_name) = false ->
  EngineRegistry.pick (Some voice_name) = None.
Proof.
  intros G O. unfold EngineRegistry.pick.
  replace (if truthy voice_name then voice_name else EmptyString) with voice_name
    by (destruct voice_name; reflexivity).
  rewrite !contains_lower_strip by reflexivity.
  now rewrite G, O.
Qed.

Lemma pick_routed (voice_name : string) (p : Provider) (v : string) :
  EngineRegistry.pick (Some voice_name) = Some (p, v) ->
  v = lower (strip voice_name)
  /\ (contains "-chirp3-hd-" (lower voice_name) = true
      \/ contains "-openai-" (lower voice_name) = true).
Proof.
  unfold EngineRegistry.pick.
  replace (if truthy voice_name then voice_name else EmptyString) with voice_name
    by (destruct voice_name; reflexivity).
  rewrite !contains_lower_strip by reflexivity.
  destruct (contains "-chirp3-hd-" (lower voice_name)).
  - intros [= <- <-]. auto.
  - destruct (contains "-openai-" (lower voice_name)); [|discriminate].
    intros [= <- <-]. auto.
Qed.

End StrFacts.

(* ================================================================== *)
(** ** Theory of the relay                                              *)
(* ================================================================== *)

Section RelayFacts.

Context {SBD : SentenceBoundaryDetector}.
Variable U : Upstream.
Variable cli : CliArgs.

Local Abbreviation chunks_out evs := (map (audio_chunk cli) (chunk_payloads evs)).

Lemma count_app (p : Out -> bool) (a b : list Out) :
  count p (a ++ b) = (count p a + count p b)%nat.
Proof. unfold count. now rewrite filter_app, length_app. Qed.

Lemma count_chunks (p : Out -> bool) (ds : list bytes) :
  (forall d r w c, p (AudioChunk d r w c) = false) ->
  count p (map (audio_chunk cli) ds) = 0%nat.
Proof.
  intros H. unfold count. induction ds as [|d ds IH]; simpl; [reflexivity|].
  unfold audio_chunk at 1. now rewrite H.
Qed.

(** Once announced, or when nothing is to be announced, only chunks
    pass. *)
Lemma relay_loop_quiet (send_start announced : bool) (evs : list AudioEvent) :
  send_start && negb announced = false ->
  relay_loop cli send_start announced evs = (chunks_out evs, announced).
Proof.
  intros Q. induction evs as [|[fmt|d] r IH]; simpl.
  - reflexivity.
  - now rewrite Q.
  - now rewrite IH.
Qed.

(** Without a format nothing is announced. *)
Lemma relay_loop_no_format (send_start announced : bool) (evs : list AudioEvent) :
  count_format evs = 0%nat ->
  relay_loop cli send_start announced evs = (chunks_out evs, announced).
Proof.
  unfold count_format. induction evs as [|[fmt|d] r IH]; simpl; intros H.
  - reflexivity.
  - discriminate.
  - now rewrite (IH H).
Qed.

(** The start is written at the first format. *)
Lemma relay_loop_first_format (pre post : list AudioEvent) (fmt : AudioFormat) :
  count_format pre = 0%nat ->
  relay_loop cli true false (pre ++ Format fmt :: post)
  = (chunks_out pre
       ++ AudioStart (rate fmt) (width fmt) (channels fmt) :: chunks_out post,
     true).
Proof.
  unfold count_format. induction pre as [|[f|d] r IH]; simpl; intros H.
  - now rewrite relay_loop_quiet.
  - discriminate.
  - now rewrite (IH H).
Qed.

(** Every sequence has no format or a first one. *)
Lemma first_format (evs : list AudioEvent) :
  count_format evs = 0%nat
  \/ exists pre fmt post, evs = pre ++ Format fmt :: post /\ count_format pre = 0%nat.
Proof.
  induction evs as [|[f|d] r IH].
  - now left.
  - right. now exists [], f, r.
  - destruct IH as [H|(pre & fmt & post & -> & H)].
    + left. exact H.
    + right. now exists (Chunk d :: pre), fmt, post.
Qed.

Lemma relay_no_format (evs : list AudioEvent) :
  count_format evs = 0%nat -> relay cli true true evs = chunks_out evs.
Proof.
  intros H. unfold relay. rewrite relay_loop_no_format by exact H.
  simpl. apply app_nil_r.
Qed.

Lemma relay_first_format (pre post : list AudioEvent) (fmt : AudioFormat) :
  count_format pre = 0%nat ->
  relay cli true true (pre ++ Format fmt :: post)
  = chunks_out pre
      ++ AudioStart (rate fmt) (width fmt) (channels fmt) :: chunks_out post
      ++ [AudioStop].
Proof.
  intros H. unfold relay. rewrite relay_loop_first_format by exact H.
  simpl. now rewrite <- app_assoc.
Qed.

Lemma relay_counts (evs : list AudioEvent) :
  (count is_AudioStart (relay cli true true evs) <= 1)%nat
  /\ count is_AudioStop (relay cli true true evs)
     = count is_AudioStart (relay cli true true evs).
Proof.
  destruct (first_format evs) as [H|(pre & fmt & post & -> & H)].
  - rewrite relay_no_format by exact H.
    rewrite !count_chunks by reflexivity. split; [lia | reflexivity].
  - rewrite relay_first_format by exact H.
    change (AudioStart (rate fmt) (width fmt) (channels fmt) :: chunks_out post ++ [AudioStop])
      with ([AudioStart (rate fmt) (width fmt) (channels fmt)] ++ chunks_out post ++ [AudioStop]).
    rewrite !count_app, !count_chunks by reflexivity.
    unfold count. cbn. split; lia.
Qed.




End RelayFacts.

(* ================================================================== *)
(** ** Theory of the event handler                                      *)
(* ================================================================== *)

Section HandlerFacts.

Context {SBD : SentenceBoundaryDetector}.
Variable U : Upstream.
Variable cli : CliArgs.

(** In this model an adapter that raises has yielded nothing. *)
Lemma engine_raise_empty (p : Provider) (text v : string) (evs : list AudioEvent) (err : Exn) :
  EngineRegistry.engine_stream p U text v cli = (evs, Some err) -> evs = [].
Proof.
  destruct p; simpl.
  - unfold GoogleTTSEngine.stream. discriminate.
  - unfold OpenAITTSEngine.stream.
    destruct (OpenAITTSEngine._parse_voice v); [discriminate|]. now intros [= <- _].
Qed.

(** What one utterance writes: nothing when it raises, the relay of the
    adapter's events otherwise. *)
Lemma synthesize_cases (text : string) (voice_name : option string) :
  (exists err, _synthesize_with_engine U cli text voice_name true true = ([], Some err))
  \/ (exists evs, _synthesize_with_engine U cli text voice_name true true
                  = (relay cli true true evs, None)).
Proof.
  unfold _synthesize_with_engine.
  destruct (EngineRegistry.pick voice_name) as [[p v]|]; [|left; now eexists].
  destruct (EngineRegistry.engine_stream p U text v cli) as [evs [err|]] eqn:E.
  - left. exists err. now rewrite (engine_raise_empty _ _ _ _ _ E).
  - right. now exists evs.
Qed.


Lemma chunk_loop_is_streaming (h : Handler) (syn : Synthesize)
    (sentences : list (string * sbd)) (final : sbd) :
  is_streaming (state_of (chunk_loop U cli h syn sentences final)) = is_streaming h.
Proof.
  revert syn. induction sentences as [|[sentence st] rest IH]; intros syn; cbn [chunk_loop].
  - reflexivity.
  - destruct (Str.is_empty (Str.strip sentence)); [reflexivity|].
    destruct (_synthesize_with_engine U cli sentence _ true true) as [outs [err|]];
      [reflexivity|].
    specialize (IH (mkSynthesize sentence (voice syn))).
    destruct (chunk_loop U cli h _ rest final) as [[h' outs'] res].
    exact IH.
Qed.

(** A blank sentence ends the loop: what the generator would yield
    after it plays no part. *)
Lemma chunk_loop_blank_cut (h : Handler) (syn : Synthesize)
    (pre : list (string * sbd)) (blank : string) (st : sbd)
    (rest : list (string * sbd)) (final final' : sbd) :
  Str.is_empty (Str.strip blank) = true ->
  chunk_loop U cli h syn (pre ++ (blank, st) :: rest) final
  = chunk_loop U cli h syn (pre ++ [(blank, st)]) final'.
Proof.
  intros B. revert syn. induction pre as [|[sentence s] pre IH]; intros syn;
    cbn [app chunk_loop].
  - now rewrite B.
  - destruct (Str.is_empty (Str.strip sentence)); [reflexivity|].
    destruct (_synthesize_with_engine U cli sentence _ true true) as [outs [err|]];
      [reflexivity|].
    now rewrite IH.
Qed.





(** Whatever is raised is first reported to the client. *)
Lemma handle_event_reports (h : Handler) (event : Event) (err : Exn) :
  result_of (handle_event U cli h event) = Raise err ->
  exists outs,
    outs_of (handle_event U cli h event)
    = outs ++ [Error (exn_text err) (exn_class err)].
Proof.
  assert (W : result_of match handle_event_try U cli h event with
                        | (h', outs, Raise e) =>
                            (h', outs ++ [Error (exn_text e) (exn_class e)], Raise e)
                        | r => r
                        end = Raise err ->
              exists outs,
                outs_of match handle_event_try U cli h event with
                        | (h', outs, Raise e) =>
                            (h', outs ++ [Error (exn_text e) (exn_class e)], Raise e)
                        | r => r
                        end = outs ++ [Error (exn_text err) (exn_class err)]).
  { destruct (handle_event_try U cli h event) as [[h' outs] [b|e]];
      unfold result_of, outs_of; cbn [fst snd]; [discriminate|].
    intros [= ->]. now exists outs. }
  destruct event; try exact W. discriminate.
Qed.

(** Only a stream-stop closes an open stream. *)
Lemma handle_event_keeps_stream (h : Handler) (event : Event) :
  is_streaming h = Some true -> event <> EvSynthesizeStop ->
  is_streaming (state_of (handle_event U cli h event)) = Some true.
Proof.
  intros S N.
  assert (T : is_streaming (state_of (handle_event_try U cli h event)) = Some true).
  { unfold handle_event_try, not_streaming. rewrite S.
    destruct (negb (getattr_streaming cli));
      [destruct event; exact S|].
    destruct event as [|syn0|v|chunk_text| |]; cbn [streaming_event];
      try exact S; try reflexivity.
    - destruct (_synthesize h) as [syn|]; [|exact S].
      destruct (add_chunk (self_sbd h) chunk_text) as [sentences final].
      now rewrite chunk_loop_is_streaming.
    - contradiction. }
  destruct event; try exact S;
    cbn [handle_event];
    destruct (handle_event_try U cli h _) as [[h' outs] [b|e]]; exact T.
Qed.

Lemma handle_event_opens_stream (h : Handler) (v : option SynthesizeVoice) :
  getattr_streaming cli = true ->
  handle_event U cli h (EvSynthesizeStart v)
  = (mkHandler (Some true) sbd_new (Some (mkSynthesize "" v)), [], Return true).
Proof.
  intros G. cbn [handle_event]. unfold handle_event_try. rewrite G.
  destruct (not_streaming h); reflexivity.
Qed.

Lemma run_keeps_stream (events : list Event) (h : Handler) :
  is_streaming h = Some true ->
  Forall (fun e => e <> EvSynthesizeStop) events ->
  is_streaming (state_of (run U cli h events)) = Some true.
Proof.
  revert h. induction events as [|e rest IH]; intros h S F; cbn [run].
  - exact S.
  - inversion F as [|? ? Ne Fr]; subst.
    pose proof (handle_event_keeps_stream h e S Ne) as K.
    destruct (handle_event U cli h e) as [[h' outs] [b|err]];
      unfold state_of in K; cbn [fst] in K; [|exact K].
    specialize (IH h' K Fr).
    destruct (run U cli h' rest) as [[h'' outs'] res]. exact IH.
Qed.

End HandlerFacts.

(* ================================================================== *)
(** ** Specified properties of the adapters and the relay              *)
(* ================================================================== *)

(** C1, at the input that breaks it.  The OpenAI adapter, for a response
    body that ends before 44 bytes, yields no event at all, so its
    sequence has no format event, while the Google adapter on the same
    request announces its format once and first, as the contract of
    [BaseTTSEngine.stream] says. *)
Theorem C1_openai_short_body_no_format :
  OpenAITTSEngine.stream Sample.upstream "Hi." "en-us-openai-tiny" Sample.cli = ([], None)
  /\ count_format (fst (OpenAITTSEngine.stream Sample.upstream "Hi." "en-us-openai-tiny"
                          Sample.cli)) = 0%nat
  /\ count_format (fst (GoogleTTSEngine.stream Sample.upstream "Hi." "en-us-chirp3-hd-charon"
                          Sample.cli)) = 1%nat.
Proof. repeat split. Qed.

(** C2. With [send_start] and [send_stop] set, one utterance writes at
    most one [AudioStart] and exactly as many [AudioStop]; what it writes
    is the relay of the picked adapter's events; a sequence without a
    format is relayed as chunks only, with neither; otherwise the
    [AudioStart] stands where the first format was and carries it, later
    formats write nothing, and the [AudioStop] comes last. *)
Theorem C2_start_stop_pairing (U : Upstream) (cli : CliArgs) :
  (forall (text : string) (voice_name : option string),
      let outs := fst (_synthesize_with_engine U cli text voice_name true true) in
      (count is_AudioStart outs <= 1)%nat
      /\ count is_AudioStop outs = count is_AudioStart outs)
  /\ (forall (text : string) (requested : option string) (p : Provider)
             (norm_voice : string) (evs : list AudioEvent),
         EngineRegistry.pick requested = Some (p, norm_voice) ->
         EngineRegistry.engine_stream p U text norm_voice cli = (evs, None) ->
         _synthesize_with_engine U cli text requested true true
         = (relay cli true true evs, None))
  /\ (forall evs : list AudioEvent,
         (count is_AudioStart (relay cli true true evs) <= 1)%nat
         /\ count is_AudioStop (relay cli true true evs)
            = count is_AudioStart (relay cli true true evs))
  /\ (forall evs : list AudioEvent,
         count_format evs = 0%nat ->
         relay cli true true evs = map (audio_chunk cli) (chunk_payloads evs))
  /\ (forall (pre post : list AudioEvent) (fmt : AudioFormat),
         count_format pre = 0%nat ->
         relay cli true true (pre ++ Format fmt :: post)
         = map (audio_chunk cli) (chunk_payloads pre)
             ++ AudioStart (rate fmt) (width fmt) (channels fmt)
             :: map (audio_chunk cli) (chunk_payloads post)
             ++ [AudioStop]).
Proof.
  split; [|split; [|split; [|split]]].
  - intros text voice_name outs. subst outs.
    destruct (synthesize_cases U cli text voice_name) as [[err E]|[evs E]]; rewrite E.
    + split; [cbn; lia | reflexivity].
    + apply relay_counts.
  - intros text requested p norm_voice evs P E.
    unfold _synthesize_with_engine. now rewrite P, E.
  - apply relay_counts.
  - apply relay_no_format.
  - apply relay_first_format.
Qed.

Lemma C2_start_stop_pairing_witness :
  relay Sample.cli true true [Chunk Sample.pcm]
  = [AudioChunk Sample.pcm 22050 2 1]
  /\ relay Sample.cli true true
       [Chunk [x01]; Format (mkAudioFormat 24000 2 1); Chunk Sample.pcm;
        Format (mkAudioFormat 48000 3 2); Chunk [x02]]
     = [AudioChunk [x01] 22050 2 1; AudioStart 24000 2 1;
        AudioChunk Sample.pcm 22050 2 1; AudioChunk [x02] 22050 2 1; AudioStop].
Proof.
  destruct (C2_start_stop_pairing Sample.upstream Sample.cli) as (_ & _ & _ & N & F). split.
  - apply (N [Chunk Sample.pcm]). reflexivity.
  - apply (F [Chunk [x01]]
             [Chunk Sample.pcm; Format (mkAudioFormat 48000 3 2); Chunk [x02]]
             (mkAudioFormat 24000 2 1)).
    reflexivity.
Defined.

(** When the body the OpenAI service streams ends before 44 bytes have
    accumulated, the adapter yields neither a format nor a chunk and ends
    without raising; the relay then writes nothing for the utterance.
    The adapter's loop yields nothing exactly when the body stays below
    44 bytes. *)
Lemma short_body_no_audio (U : Upstream) (cli : CliArgs)
    (text voice_name voice : string) :
  OpenAITTSEngine._parse_voice voice_name = Some voice ->
  (length (concat (openai_iter_bytes U (OpenAITTSEngine.model U) voice text)) < 44)%nat ->
  OpenAITTSEngine.stream U text voice_name cli = ([], None)
  /\ (forall requested : option string,
         EngineRegistry.pick requested = Some (openai, voice_name) ->
         _synthesize_with_engine U cli text requested true true = ([], None))
  /\ (forall frags : list bytes,
         Wav.events frags = [] <-> (length (concat frags) < 44)%nat).
Proof.
  intros V S.
  assert (E : OpenAITTSEngine.stream U text voice_name cli = ([], None)).
  { unfold OpenAITTSEngine.stream. rewrite V.
    now rewrite (proj2 (StreamFacts.events_empty_iff _) S). }
  split; [exact E|]. split.
  - intros requested P. unfold _synthesize_with_engine. rewrite P.
    cbn [EngineRegistry.engine_stream]. now rewrite E.
  - apply StreamFacts.events_empty_iff.
Qed.

Lemma short_body_no_audio_example :
  OpenAITTSEngine.stream Sample.upstream "Hi." "en-us-openai-tiny" Sample.cli = ([], None)
  /\ _synthesize_with_engine Sample.upstream Sample.cli "Hi." (Some "en-US-OpenAI-tiny")
       true true = ([], None).
Proof.
  destruct (short_body_no_audio Sample.upstream Sample.cli "Hi." "en-us-openai-tiny" "tiny")
    as (A & B & _).
  - reflexivity.
  - apply Nat.ltb_lt. reflexivity.
  - split; [exact A|]. apply B. reflexivity.
Defined.

(** C4, at the input that breaks it.  For a response body of ten bytes
    the OpenAI adapter yields neither a format nor a chunk, as the claim
    says, but it tells its caller nothing: the generator ends as any
    finished stream does, without an event and without raising;
    [_synthesize_with_engine] ends normally having written nothing, and
    [handle_event] returns [True] with no event for the client, neither
    an [Error] nor an [AudioStop]. *)
Theorem C4_short_body_silent_end :
  OpenAITTSEngine.stream Sample.upstream "Hi." "en-us-openai-tiny" Sample.cli = ([], None)
  /\ _synthesize_with_engine Sample.upstream Sample.cli "Hi." (Some "en-US-openai-tiny")
       true true = ([], None)
  /\ handle_event Sample.upstream Sample.cli Sample.idle
       (EvSynthesize (mkSynthesize "Hi." (Some (mkVoice (Some "en-US-openai-tiny")))))
     = (Sample.idle, [], Return true).
Proof. repeat split. Qed.



(** A voice whose lowercased form holds neither infix is never routed:
    the utterance writes nothing and raises the [TypeError] of unpacking
    [None]; a one-shot request with text, and a stream chunk whose first
    sentence is not blank, write one [Error] event whose code is
    [TypeError] and nothing else, and raise. *)
Lemma unroutable_voice_raises {SBD : SentenceBoundaryDetector}
    (U : Upstream) (cli : CliArgs) (voice_name : string) :
  Str.contains "-chirp3-hd-" (Str.lower voice_name) = false ->
  Str.contains "-openai-" (Str.lower voice_name) = false ->
  (forall (text : string) (send_start send_stop : bool),
      _synthesize_with_engine U cli text (Some voice_name) send_start send_stop
      = ([], Some TypeError_unpack_None))
  /\ (forall (h : Handler) (syn : Synthesize),
         not_streaming h = true ->
         Str.truthy (collapse_lines (text syn)) = true ->
         one_shot_voice cli syn = voice_name ->
         handle_event U cli h (EvSynthesize syn)
         = (h, [Error "cannot unpack non-iterable NoneType object" "TypeError"],
            Raise TypeError_unpack_None))
  /\ (forall (h : Handler) (syn : Synthesize) (chunk_text sentence : string)
             (st : sbd) (rest : list (string * sbd)) (final : sbd),
         getattr_streaming cli = true ->
         _synthesize h = Some syn ->
         stream_voice cli syn = Some voice_name ->
         add_chunk (self_sbd h) chunk_text = ((sentence, st) :: rest, final) ->
         Str.is_empty (Str.strip sentence) = false ->
         handle_event U cli h (EvSynthesizeChunk chunk_text)
         = (mkHandler (is_streaming h) st (Some (mkSynthesize sentence (voice syn))),
            [Error "cannot unpack non-iterable NoneType object" "TypeError"],
            Raise TypeError_unpack_None)).
Proof.
  intros G O.
  assert (S : forall text send_start send_stop,
             _synthesize_with_engine U cli text (Some voice_name) send_start send_stop
             = ([], Some TypeError_unpack_None)).
  { intros. unfold _synthesize_with_engine.
    now rewrite (StrFacts.pick_unroutable voice_name G O). }
  split; [exact S|]. split.
  - intros h syn N T V. cbn [handle_event]. unfold handle_event_try.
    rewrite N. unfold one_shot. rewrite T, V, S. reflexivity.
  - intros h syn chunk_text sentence st rest final E Y V A B.
    cbn [handle_event]. unfold handle_event_try. rewrite E.
    cbn [negb streaming_event]. rewrite Y, A. cbn [chunk_loop]. rewrite B.
    unfold stream_voice in *. cbn [voice]. rewrite V, S. reflexivity.
Qed.

Lemma unroutable_voice_raises_example :
  handle_event Sample.upstream Sample.cli Sample.idle
    (EvSynthesize (mkSynthesize "Hi." (Some (mkVoice (Some "alloy")))))
  = (Sample.idle, [Error "cannot unpack non-iterable NoneType object" "TypeError"],
     Raise TypeError_unpack_None)
  /\ handle_event Sample.upstream Sample.cli (Sample.streaming "alloy")
       (EvSynthesizeChunk (Sample.lines ["One."; "Two."]))
     = (@mkHandler Sample.line_segmenter (Some true) (Sample.lines ["Two."])
          (Some (mkSynthesize "One." (Some (mkVoice (Some "alloy"))))),
        [Error "cannot unpack non-iterable NoneType object" "TypeError"],
        Raise TypeError_unpack_None).
Proof.
  destruct (@unroutable_voice_raises Sample.line_segmenter
              Sample.upstream Sample.cli "alloy" eq_refl eq_refl) as (_ & A & B).
  split.
  - apply A; reflexivity.
  - apply (B (Sample.streaming "alloy")
             (mkSynthesize "" (Some (mkVoice (Some "alloy"))))
             (Sample.lines ["One."; "Two."]) "One."
             (Sample.lines ["Two."]) [("Two.", EmptyString)] EmptyString); reflexivity.
Defined.

(** For the voice [alloy], which holds neither infix, no [Error] event
    with the code [UnroutableVoice] is written. *)
Lemma no_UnroutableVoice_tag :
  ~ (forall voice_name : string,
        Str.contains "-chirp3-hd-" (Str.lower voice_name) = false ->
        Str.contains "-openai-" (Str.lower voice_name) = false ->
        exists text,
          In (Error text "UnroutableVoice")
             (outs_of (handle_event Sample.upstream Sample.cli Sample.idle
                         (EvSynthesize
                            (mkSynthesize "Hi." (Some (mkVoice (Some voice_name)))))))).
Proof.
  intros H. destruct (H "alloy" eq_refl eq_refl) as [text [E|[]]]. discriminate E.
Qed.

(** C3, at the input that breaks it.  For the voice [alloy], whose
    lowercased form holds neither infix, [pick] falls off its [if]/[elif]
    and returns [None], and unpacking it raises [TypeError].  A one-shot
    request, a stream chunk and the remainder at a stream-stop then write
    no audio event, use no default provider and abort by raising; but the
    one [Error] event they write carries the code [TypeError], the class
    of that accident, and not an unroutable-voice category. *)
Theorem C3_unroutable_voice_TypeError :
  EngineRegistry.pick (Some "alloy") = None
  /\ handle_event Sample.upstream Sample.cli Sample.idle
       (EvSynthesize (mkSynthesize "Hi." (Some (mkVoice (Some "alloy")))))
     = (Sample.idle,
        [Error "cannot unpack non-iterable NoneType object" "TypeError"],
        Raise TypeError_unpack_None)
  /\ handle_event Sample.upstream Sample.cli (Sample.streaming "alloy")
       (EvSynthesizeChunk (Sample.lines ["One."]))
     = (@mkHandler Sample.line_segmenter (Some true) ""
          (Some (mkSynthesize "One." (Some (mkVoice (Some "alloy"))))),
        [Error "cannot unpack non-iterable NoneType object" "TypeError"],
        Raise TypeError_unpack_None)
  /\ handle_event Sample.upstream Sample.cli
       (@mkHandler Sample.line_segmenter (Some true) "Rest"
          (Some (mkSynthesize "" (Some (mkVoice (Some "alloy"))))))
       EvSynthesizeStop
     = (@mkHandler Sample.line_segmenter (Some true) ""
          (Some (mkSynthesize "" (Some (mkVoice (Some "alloy"))))),
        [Error "cannot unpack non-iterable NoneType object" "TypeError"],
        Raise TypeError_unpack_None).
Proof. repeat split. Qed.

(** C8, at the input that breaks it.  For a chunk from which the
    segmenter yields a blank sentence and then [Two.], the handler
    returns at the blank sentence having written nothing, and [Two.] is
    left in the detector; the same chunk without the blank sentence is
    synthesized. *)
Theorem C8_blank_sentence_ends_chunk :
  map fst (fst (add_chunk (sbd_new : @sbd Sample.line_segmenter) (Sample.lines [" "; "Two."])))
  = [" "; "Two."]
  /\ handle_event Sample.upstream Sample.cli (Sample.streaming "en-US-openai-alloy")
       (EvSynthesizeChunk (Sample.lines [" "; "Two."]))
     = (@mkHandler Sample.line_segmenter (Some true) (Sample.lines ["Two."])
          (Some (mkSynthesize "" (Some (mkVoice (Some "en-US-openai-alloy"))))),
        [], Return true)
  /\ outs_of (handle_event Sample.upstream Sample.cli (Sample.streaming "en-US-openai-alloy")
                (EvSynthesizeChunk (Sample.lines ["Two."])))
     = [AudioStart 24000 2 1; AudioChunk (firstn 4 Sample.pcm) 22050 2 1;
        AudioChunk (skipn 4 Sample.pcm) 22050 2 1; AudioStop].
Proof. repeat split. Qed.

(** While [is_streaming] is set, a [Synthesize] request changes nothing,
    writes nothing and returns [True]. *)
Lemma synthesize_ignored_when_streaming {SBD : SentenceBoundaryDetector}
    (U : Upstream) (cli : CliArgs) (h : Handler) (syn : Synthesize) :
  is_streaming h = Some true ->
  handle_event U cli h (EvSynthesize syn) = (h, [], Return true).
Proof.
  intros S. cbn [handle_event]. unfold handle_event_try, not_streaming.
  rewrite S. destruct (negb (getattr_streaming cli)); reflexivity.
Qed.

(** C10, with the condition the code puts on it.  When streaming is
    enabled in [cli_args], after a stream-start and any requests that
    follow it short of a stream-stop, the stream is open and a
    [Synthesize] request is ignored: the handler's state, the segmenter
    in it, is left as it is, nothing is written and [True] is
    returned. *)
Theorem C10_synthesize_ignored_in_open_stream {SBD : SentenceBoundaryDetector}
    (U : Upstream) (cli : CliArgs) (h0 : Handler) (v : option SynthesizeVoice)
    (events : list Event) (syn : Synthesize) :
  getattr_streaming cli = true ->
  Forall (fun e => e <> EvSynthesizeStop) events ->
  let h := state_of (run U cli h0 (EvSynthesizeStart v :: events)) in
  is_streaming h = Some true
  /\ handle_event U cli h (EvSynthesize syn) = (h, [], Return true).
Proof.
  intros G F h.
  assert (S : is_streaming h = Some true).
  { subst h. cbn [run]. rewrite (handle_event_opens_stream U cli h0 v G).
    pose proof (run_keeps_stream U cli events
                  (mkHandler (Some true) sbd_new (Some (mkSynthesize "" v)))
                  eq_refl F) as K.
    destruct (run U cli _ events) as [[h'' outs'] res]. exact K. }
  split; [exact S | now apply synthesize_ignored_when_streaming].
Qed.

Lemma C10_synthesize_ignored_in_open_stream_witness :
  let h := state_of (run Sample.upstream Sample.cli Sample.idle
                       [EvSynthesizeStart (Some (mkVoice (Some "en-US-openai-alloy")));
                        EvSynthesizeChunk (Sample.lines ["One."] ++ "Tw")%string;
                        EvDescribe]) in
  is_streaming h = Some true
  /\ handle_event Sample.upstream Sample.cli h (EvSynthesize (mkSynthesize "Hi." None))
     = (h, [], Return true).
Proof.
  apply (@C10_synthesize_ignored_in_open_stream Sample.line_segmenter
           Sample.upstream Sample.cli Sample.idle
           (Some (mkVoice (Some "en-US-openai-alloy")))
           [EvSynthesizeChunk (Sample.lines ["One."] ++ "Tw")%string; EvDescribe]
           (mkSynthesize "Hi." None)).
  - reflexivity.
  - repeat constructor; discriminate.
Defined.

(** C10 as stated fails.  With streaming disabled in [cli_args], as it
    is when the server is started without its streaming option, the
    stream-start is dropped, so that a [Synthesize] request that comes
    after it and before any stream-stop is served as a one-shot request:
    audio is written. *)
Lemma C10_counterexample :
  let cli := mkCliArgs None None (Some false) in
  let h := state_of (run Sample.upstream cli Sample.idle [EvSynthesizeStart None]) in
  handle_event Sample.upstream cli h (EvSynthesize (mkSynthesize "Hi." None))
  = (h,
     [AudioStart 22050 2 1; AudioChunk [x0a; x0b] 22050 2 1;
      AudioChunk [x0c] 22050 2 1; AudioStop],
     Return true)
  /\ handle_event Sample.upstream cli h (EvSynthesize (mkSynthesize "Hi." None))
     <> (h, [], Return true).
Proof. split; [reflexivity | discriminate]. Qed.

(* ================================================================== *)
(** ** Further properties: the OpenAI adapter's event sequence          *)
(* ================================================================== *)

Module WavMore.
Import Wav WavFacts StreamFacts.

Lemma loop_skip_empty (frags : list bytes) (st : State) :
  loop st (filter truthy frags) = loop st frags.
Proof.
  revert st. induction frags as [|x r IH]; intros st; [reflexivity|].
  destruct x as [|b x]; cbn [filter truthy loop negb]; [apply IH|].
  destruct (negb (got_header st)).
  - destruct (negb (ok (try_parse_wav_header (header_buf st ++ b :: x))));
      now rewrite IH.
  - now rewrite IH.
Qed.

(** The sequence in full: nothing below 44 bytes; from 44 bytes on the
    format read off the whole body, then non-empty chunks that make up
    the body from the payload offset on. *)
Lemma events_summary (frags : list bytes) :
  ((length (concat frags) < 44)%nat /\ events frags = [])
  \/ ((44 <= length (concat frags))%nat
      /\ exists chunks,
          events frags
          = Format (announced_format initial (try_parse_wav_header (concat frags)))
              :: map Chunk chunks
          /\ concat chunks
             = skipn (data_offset (try_parse_wav_header (concat frags))) (concat frags)
          /\ Forall (fun d => d <> []) chunks).
Proof.
  destruct (Nat.lt_ge_cases (length (concat frags)) 44) as [S|S].
  - left. split; [exact S|]. apply (loop_short frags [] 24000 1 2). exact S.
  - right. split; [exact S|].
    destruct (loop_total frags [] 24000 1 2) as (chunks & E & C & F);
      [simpl; lia | exact S |].
    exists chunks. rewrite events_loop. cbn [app] in *. auto.
Qed.

Lemma from_bytes_little_bound (bs : bytes) :
  0 <= from_bytes_little bs < 256 ^ Z.of_nat (length bs).
Proof.
  induction bs as [|b r IH]; cbn [from_bytes_little length]; [cbn; lia|].
  rewrite Nat2Z.inj_succ, Z.pow_succ_r by lia.
  pose proof (Byte.to_N_bounded b). lia.
Qed.

Lemma slice_length (i j : nat) (buf : bytes) : (length (slice i j buf) <= j - i)%nat.
Proof. unfold slice. apply firstn_le_length. Qed.

Lemma field_bound (i j : nat) (buf : bytes) :
  0 <= from_bytes_little (slice i j buf) < 256 ^ Z.of_nat (j - i).
Proof.
  pose proof (from_bytes_little_bound (slice i j buf)) as B.
  pose proof (slice_length i j buf) as L.
  assert (256 ^ Z.of_nat (length (slice i j buf)) <= 256 ^ Z.of_nat (j - i)).
  { apply Z.pow_le_mono_r; lia. }
  lia.
Qed.

(** Whatever the buffer, the format announced from the fallback is made
    of positive numbers within the fields' ranges. *)
Lemma announced_format_bounds (buf : bytes) :
  let fmt := announced_format initial (try_parse_wav_header buf) in
  0 < rate fmt < 2 ^ 32 /\ 0 < width fmt < 2 ^ 13 /\ 0 < channels fmt < 2 ^ 16.
Proof.
  unfold try_parse_wav_header.
  destruct (length buf <? 44)%nat; [cbn; lia|].
  destruct (negb (has_magic buf)); [cbn; lia|].
  pose proof (field_bound 22 24 buf) as C.
  pose proof (field_bound 24 28 buf) as R.
  pose proof (field_bound 34 36 buf) as B.
  change (256 ^ Z.of_nat (24 - 22)) with 65536 in C.
  change (256 ^ Z.of_nat (28 - 24)) with 4294967296 in R.
  change (256 ^ Z.of_nat (36 - 34)) with 65536 in B.
  unfold announced_format, initial.
  cbn [sr ch width_bytes rate width channels sample_rate st_channels st_width or_default].
  change (2 ^ 32) with 4294967296. change (2 ^ 13) with 8192. change (2 ^ 16) with 65536.
  set (c := from_bytes_little (slice 22 24 buf)) in *.
  set (r := from_bytes_little (slice 24 28 buf)) in *.
  set (b := from_bytes_little (slice 34 36 buf)) in *.
  split; [|split].
  - destruct (Z.eqb_spec r 0); lia.
  - destruct (Z.eqb_spec b 0); cbn [or_default]; [lia|].
    assert (0 <= b / 8 < 8192).
    { split; [apply Z.div_pos; lia | apply Z.div_lt_upper_bound; lia]. }
    destruct (Z.eqb_spec (b / 8) 0); lia.
  - destruct (Z.eqb_spec c 0); lia.
Qed.

End WavMore.

(** X1. Empty fragments of the response body never show: the events of a
    body are those of the body without its empty fragments, wherever
    they stand. *)
Theorem X1_empty_fragments_ignored :
  (forall frags : list bytes, Wav.events (filter truthy frags) = Wav.events frags)
  /\ (forall pre post : list bytes,
         Wav.events (pre ++ [] :: post) = Wav.events (pre ++ post)).
Proof.
  split.
  - intros frags. apply WavMore.loop_skip_empty.
  - intros pre post. unfold Wav.events.
    rewrite <- (WavMore.loop_skip_empty (pre ++ [] :: post)),
            <- (WavMore.loop_skip_empty (pre ++ post)).
    now rewrite !filter_app.
Qed.

(** X2. The events of the OpenAI adapter are either none, or one format
    followed by chunks only, none of them empty; so there is at most one
    format and no chunk comes without a format before it. *)
Theorem X2_openai_sequence_shape (frags : list bytes) :
  (Wav.events frags = []
   \/ exists fmt chunks,
       Wav.events frags = Format fmt :: map Chunk chunks
       /\ Forall (fun d => d <> []) chunks)
  /\ (count_format (Wav.events frags) <= 1)%nat.
Proof.
  destruct (WavMore.events_summary frags) as [[_ E]|[_ (chunks & E & _ & F)]]; rewrite E.
  - split; [now left | cbn; lia].
  - split.
    + right. now eexists _, chunks.
    + rewrite (StreamFacts.format_then_chunks_count
                 (Format _ :: map Chunk chunks)); [lia|].
      now eexists _, chunks.
Qed.

(** X3. How the body is cut into fragments does not matter: two
    fragment lists of the same body announce the same format (or both
    none) and carry the same payload. *)
Theorem X3_fragmentation_independent (frags1 frags2 : list bytes) :
  concat frags1 = concat frags2 ->
  hd_error (Wav.events frags1) = hd_error (Wav.events frags2)
  /\ count_format (Wav.events frags1) = count_format (Wav.events frags2)
  /\ concat (chunk_payloads (Wav.events frags1))
     = concat (chunk_payloads (Wav.events frags2)).
Proof.
  intros H.
  destruct (WavMore.events_summary frags1) as [[S1 E1]|[S1 (c1 & E1 & C1 & _)]];
    destruct (WavMore.events_summary frags2) as [[S2 E2]|[S2 (c2 & E2 & C2 & _)]];
    rewrite H in *; try lia; rewrite E1, E2.
  - repeat split.
  - cbn [hd_error chunk_payloads].
    rewrite !StreamFacts.chunk_payloads_chunks, C1, C2.
    repeat split.
    unfold count_format. cbn [filter is_format length].
    fold (count_format (map Chunk c1)). fold (count_format (map Chunk c2)).
    now rewrite !StreamFacts.count_format_chunks.
Qed.

Lemma X3_fragmentation_independent_witness :
  hd_error (Wav.events [firstn 7 Sample.wav_header_stereo;
                        skipn 7 Sample.wav_header_stereo ++ Sample.pcm])
  = hd_error (Wav.events [Sample.wav_header_stereo ++ firstn 2 Sample.pcm;
                          skipn 2 Sample.pcm])
  /\ count_format (Wav.events [firstn 7 Sample.wav_header_stereo;
                               skipn 7 Sample.wav_header_stereo ++ Sample.pcm])
     = count_format (Wav.events [Sample.wav_header_stereo ++ firstn 2 Sample.pcm;
                                 skipn 2 Sample.pcm])
  /\ concat (chunk_payloads (Wav.events [firstn 7 Sample.wav_header_stereo;
                                         skipn 7 Sample.wav_header_stereo ++ Sample.pcm]))
     = concat (chunk_payloads (Wav.events [Sample.wav_header_stereo ++ firstn 2 Sample.pcm;
                                           skipn 2 Sample.pcm])).
Proof.
  apply (X3_fragmentation_independent
           [firstn 7 Sample.wav_header_stereo; skipn 7 Sample.wav_header_stereo ++ Sample.pcm]
           [Sample.wav_header_stereo ++ firstn 2 Sample.pcm; skipn 2 Sample.pcm]).
  reflexivity.
Defined.

(** X4. Every format the OpenAI adapter announces has a rate in
    1..2^32-1, a width in 1..8191 and a channel count in 1..65535: a zero
    field never reaches the caller. *)
Theorem X4_announced_format_positive (frags : list bytes) (fmt : AudioFormat) :
  In (Format fmt) (Wav.events frags) ->
  0 < rate fmt < 2 ^ 32 /\ 0 < width fmt < 2 ^ 13 /\ 0 < channels fmt < 2 ^ 16.
Proof.
  intros H.
  destruct (WavMore.events_summary frags) as [[_ E]|[_ (chunks & E & _ & _)]];
    rewrite E in H; [contradiction|].
  destruct H as [H|H].
  - injection H as <-. apply WavMore.announced_format_bounds.
  - apply in_map_iff in H. destruct H as (d & D & _). discriminate D.
Qed.

Lemma X4_announced_format_positive_witness :
  0 < 24000 < 2 ^ 32 /\ 0 < 2 < 2 ^ 13 /\ 0 < 1 < 2 ^ 16.
Proof.
  apply (X4_announced_format_positive [Sample.wav_header_zero] (mkAudioFormat 24000 2 1)).
  left. reflexivity.
Defined.

(* ================================================================== *)
(** ** Further properties: the Google adapter                           *)
(* ================================================================== *)

Module GoogleMore.

Lemma forward_contents (responses : list (option bytes)) :
  GoogleTTSEngine.forward responses = map Chunk (audio_contents responses).
Proof.
  induction responses as [|[d|] r IH]; cbn [GoogleTTSEngine.forward audio_contents map].
  - reflexivity.
  - destruct (truthy d); cbn [map]; now rewrite IH.
  - exact IH.
Qed.

Lemma concat_contents (responses : list (option bytes)) :
  concat (audio_contents responses) = all_audio responses.
Proof.
  induction responses as [|[d|] r IH]; cbn [audio_contents all_audio concat].
  - reflexivity.
  - destruct d as [|b d]; cbn [truthy concat app]; now rewrite IH.
  - exact IH.
Qed.

Lemma split_char_none (c : ascii) (s : string) :
  StrMore.has_char c s = false -> Str.split_char c s = [s].
Proof.
  induction s as [|a r IH]; cbn [StrMore.has_char Str.split_char]; [reflexivity|].
  intros H. apply orb_false_iff in H. destruct H as [A R].
  now rewrite A, (IH R).
Qed.

Lemma split_char_app (c : ascii) (a r : string) :
  StrMore.has_char c a = false ->
  Str.split_char c (a ++ String c r)%string = a :: Str.split_char c r.
Proof.
  induction a as [|x a IH]; cbn [StrMore.has_char String.append Str.split_char].
  - intros _. now rewrite Ascii.eqb_refl.
  - intros H. apply orb_false_iff in H. destruct H as [A R].
    now rewrite A, (IH R).
Qed.

End GoogleMore.

(** X5. The Google adapter announces the configured rate, 2 bytes, mono
    first and once, whatever the service answers (even nothing), then
    forwards the non-empty audio contents in order and raises nothing;
    the forwarded bytes are all the audio bytes of the responses. *)
Theorem X5_google_stream (U : Upstream) (text voice_name : string) (cli : CliArgs) :
  let responses :=
    google_streaming_synthesize U voice_name
      (GoogleTTSEngine._language_code_from_voice voice_name) text in
  GoogleTTSEngine.stream U text voice_name cli
  = (Format (mkAudioFormat (getattr_sample_rate cli) 2 1)
       :: map Chunk (audio_contents responses), None)
  /\ count_format (fst (GoogleTTSEngine.stream U text voice_name cli)) = 1%nat
  /\ concat (chunk_payloads (fst (GoogleTTSEngine.stream U text voice_name cli)))
     = all_audio responses.
Proof.
  intros responses.
  assert (E : GoogleTTSEngine.stream U text voice_name cli
              = (Format (mkAudioFormat (getattr_sample_rate cli) 2 1)
                   :: map Chunk (audio_contents responses), None)).
  { unfold GoogleTTSEngine.stream. fold responses.
    now rewrite GoogleMore.forward_contents. }
  rewrite E. cbn [fst chunk_payloads]. split; [reflexivity|]. split.
  - apply StreamFacts.format_then_chunks_count. now eexists _, _.
  - now rewrite StreamFacts.chunk_payloads_chunks, GoogleMore.concat_contents.
Qed.

(** X6. The language code sent to Google is [en-US] for a voice name
    without a hyphen (the empty name too), and otherwise the first two
    hyphen-separated parts joined by a hyphen, whatever follows them. *)
Theorem X6_language_code :
  (forall voice_name : string,
      StrMore.has_char "-" voice_name = false ->
      GoogleTTSEngine._language_code_from_voice voice_name = "en-US")
  /\ (forall a b : string,
         StrMore.has_char "-" a = false ->
         StrMore.has_char "-" b = false ->
         GoogleTTSEngine._language_code_from_voice (a ++ "-" ++ b)%string
         = (a ++ "-" ++ b)%string
         /\ forall rest : string,
             GoogleTTSEngine._language_code_from_voice
               (a ++ "-" ++ b ++ "-" ++ rest)%string
             = (a ++ "-" ++ b)%string).
Proof.
  split.
  - intros v H. unfold GoogleTTSEngine._language_code_from_voice.
    now rewrite (GoogleMore.split_char_none _ _ H).
  - intros a b A B. unfold GoogleTTSEngine._language_code_from_voice. split.
    + change (a ++ "-" ++ b)%string with (a ++ String "-" b)%string.
      rewrite (GoogleMore.split_char_app _ a b A), (GoogleMore.split_char_none _ _ B).
      reflexivity.
    + intros rest.
      change (a ++ "-" ++ b ++ "-" ++ rest)%string
        with (a ++ String "-" (b ++ String "-" rest))%string.
      rewrite (GoogleMore.split_char_app _ a _ A), (GoogleMore.split_char_app _ b _ B).
      cbn [length Nat.leb firstn Str.join]. reflexivity.
Qed.

Lemma X6_language_code_witness :
  GoogleTTSEngine._language_code_from_voice "charon" = "en-US"
  /\ GoogleTTSEngine._language_code_from_voice "en-us-chirp3-hd-charon" = "en-us".
Proof.
  destruct X6_language_code as [N P]. split.
  - apply N. reflexivity.
  - destruct (P "en" "us" eq_refl eq_refl) as [_ R].
    apply (R "chirp3-hd-charon").
Defined.

(* ================================================================== *)
(** ** Further properties: the registry and the voice token             *)
(* ================================================================== *)

Module RegistryMore.
Import StrFacts.

Lemma lower_char_idem (c : ascii) : Str.lower_char (Str.lower_char c) = Str.lower_char c.
Proof. destruct c as [[] [] [] [] [] [] [] []]; reflexivity. Qed.

Lemma lower_idem (s : string) : Str.lower (Str.lower s) = Str.lower s.
Proof.
  induction s as [|c r IH]; cbn [Str.lower]; [reflexivity|].
  now rewrite lower_char_idem, IH.
Qed.

Lemma lstrip_idem (s : string) : Str.lstrip (Str.lstrip s) = Str.lstrip s.
Proof.
  induction s as [|c r IH]; [reflexivity|].
  cbn [Str.lstrip]. destruct (Str.is_space c) eqn:C; [exact IH|].
  cbn [Str.lstrip]. now rewrite C.
Qed.

Lemma rstrip_idem (s : string) : Str.rstrip (Str.rstrip s) = Str.rstrip s.
Proof.
  induction s as [|c r IH]; [reflexivity|].
  cbn [Str.rstrip]. destruct (Str.rstrip r) as [|b r'] eqn:R.
  - destruct (Str.is_space c) eqn:C; [reflexivity|].
    cbn [Str.rstrip]. now rewrite C.
  - change (Str.rstrip (String c (String b r')))
      with (match Str.rstrip (String b r') with
            | EmptyString => if Str.is_space c then EmptyString else String c EmptyString
            | String x y => String c (String x y)
            end).
    now rewrite IH.
Qed.

Lemma lstrip_rstrip (s : string) :
  Str.lstrip (Str.rstrip s) = Str.rstrip (Str.lstrip s).
Proof.
  induction s as [|c r IH]; [reflexivity|].
  cbn [Str.lstrip Str.rstrip]. destruct (Str.is_space c) eqn:C.
  - rewrite <- IH. destruct (Str.rstrip r) as [|b r']; [reflexivity|].
    cbn [Str.lstrip]. now rewrite C.
  - cbn [Str.rstrip]. destruct (Str.rstrip r) as [|b r'];
      cbn [Str.lstrip]; now rewrite C.
Qed.

Lemma strip_idem (s : string) : Str.strip (Str.strip s) = Str.strip s.
Proof.
  unfold Str.strip. now rewrite lstrip_rstrip, rstrip_idem, lstrip_idem.
Qed.

Lemma startswith_drop (t s : string) :
  Str.startswith t s = true -> s = (t ++ Str.drop (String.length t) s)%string.
Proof.
  revert s. induction t as [|a t IH]; intros s H; [reflexivity|].
  destruct s as [|b s]; [discriminate|].
  cbn [Str.startswith] in H. apply andb_true_iff in H. destruct H as [A T].
  apply Ascii.eqb_eq in A. subst b.
  cbn [String.length Str.drop String.append]. now rewrite <- (IH s T).
Qed.

Lemma after_first_none (t s : string) :
  Str.after_first t s = None <-> Str.contains t s = false.
Proof.
  induction s as [|c r IH]; cbn [Str.after_first Str.contains].
  - destruct (Str.startswith t EmptyString); cbn; split; congruence.
  - destruct (Str.startswith t (String c r)); cbn [orb]; [split; congruence | exact IH].
Qed.

Lemma after_first_some (t s r : string) :
  Str.after_first t s = Some r -> exists pre, s = (pre ++ t ++ r)%string.
Proof.
  induction s as [|c s IH]; cbn [Str.after_first].
  - destruct (Str.startswith t EmptyString) eqn:S; [|discriminate].
    intros [= <-]. exists EmptyString. exact (startswith_drop _ _ S).
  - destruct (Str.startswith t (String c s)) eqn:S.
    + intros [= <-]. exists EmptyString. exact (startswith_drop _ _ S).
    + intros H. destruct (IH H) as [pre ->]. now exists (String c pre).
Qed.

(** [pick] as a table over the normalized voice. *)
Lemma pick_table (voice_name : option string) :
  EngineRegistry.pick voice_name
  = let v := Str.lower (Str.strip (requested_name voice_name)) in
    if Str.contains "-chirp3-hd-" v then Some (google, v)
    else if Str.contains "-openai-" v then Some (openai, v)
    else None.
Proof.
  unfold EngineRegistry.pick, requested_name.
  destruct voice_name as [[|c s]|]; reflexivity.
Qed.

(** The normalized voice is a fixed point of the normalization. *)
Lemma normalized_fixed (s : string) :
  Str.lower (Str.strip (Str.lower (Str.strip s))) = Str.lower (Str.strip s).
Proof. now rewrite <- lower_strip, strip_idem, lower_idem. Qed.

End RegistryMore.

(** X7. The routing table of [pick], on the lowercased name alone: a
    name with the infix [-chirp3-hd-] goes to Google (also when it holds
    [-openai-] as well), otherwise a name with [-openai-] goes to OpenAI,
    otherwise there is no engine; the voice handed on is the stripped,
    lowercased name.  No name and the empty name have no engine. *)
Theorem X7_pick_table :
  EngineRegistry.pick None = None
  /\ EngineRegistry.pick (Some "") = None
  /\ forall voice_name : string,
      EngineRegistry.pick (Some voice_name)
      = if Str.contains "-chirp3-hd-" (Str.lower voice_name)
        then Some (google, Str.lower (Str.strip voice_name))
        else if Str.contains "-openai-" (Str.lower voice_name)
             then Some (openai, Str.lower (Str.strip voice_name))
             else None.
Proof.
  split; [reflexivity|]. split; [reflexivity|].
  intros v. rewrite RegistryMore.pick_table. cbn [requested_name]. cbv zeta.
  now rewrite !StrFacts.contains_lower_strip by reflexivity.
Qed.

(** X8. [pick] does not see letter case or surrounding white space: the
    lowercased name and the stripped name are routed as the name is, and
    the normalized voice it returns is routed to the same engine and
    comes back unchanged. *)
Theorem X8_pick_normalization (voice_name : string) :
  EngineRegistry.pick (Some (Str.lower voice_name)) = EngineRegistry.pick (Some voice_name)
  /\ EngineRegistry.pick (Some (Str.strip voice_name)) = EngineRegistry.pick (Some voice_name)
  /\ forall (p : Provider) (v : string),
      EngineRegistry.pick (Some voice_name) = Some (p, v) ->
      EngineRegistry.pick (Some v) = Some (p, v).
Proof.
  rewrite !RegistryMore.pick_table. cbn [requested_name]. cbv zeta.
  assert (L : Str.lower (Str.strip (Str.lower voice_name))
              = Str.lower (Str.strip voice_name)).
  { now rewrite <- StrFacts.lower_strip, RegistryMore.lower_idem. }
  split; [now rewrite L|]. split; [now rewrite RegistryMore.strip_idem|].
  intros p v H.
  assert (V : v = Str.lower (Str.strip voice_name)).
  { destruct (Str.contains "-chirp3-hd-" _); [now injection H|].
    destruct (Str.contains "-openai-" _); [now injection H | discriminate]. }
  subst v. rewrite RegistryMore.pick_table. cbn [requested_name]. cbv zeta.
  rewrite RegistryMore.normalized_fixed. exact H.
Qed.

Lemma X8_pick_normalization_witness :
  EngineRegistry.pick (Some "en-us-openai-alloy") = Some (openai, "en-us-openai-alloy").
Proof.
  destruct (X8_pick_normalization "  en-US-OpenAI-Alloy ") as (_ & _ & F).
  apply (F openai "en-us-openai-alloy"). reflexivity.
Defined.

Module TokenFacts.

Lemma routed_token (requested : option string) (v : string) :
  EngineRegistry.pick requested = Some (openai, v) ->
  exists token pre,
    OpenAITTSEngine._parse_voice v = Some token
    /\ v = (pre ++ "-openai-" ++ token)%string.
Proof.
  intros H. rewrite RegistryMore.pick_table in H. cbv zeta in H.
  set (n := Str.lower (Str.strip (requested_name requested))) in *.
  destruct (Str.contains "-chirp3-hd-" n); [discriminate|].
  destruct (Str.contains "-openai-" n) eqn:O; [|discriminate].
  injection H as <-.
  assert (S : Str.strip n = n).
  { unfold n. now rewrite <- StrFacts.lower_strip, RegistryMore.strip_idem. }
  assert (L : Str.lower n = n) by apply RegistryMore.lower_idem.
  unfold OpenAITTSEngine._parse_voice. rewrite S, L, O.
  destruct (Str.after_first "-openai-" n) as [token|] eqn:A.
  - destruct (RegistryMore.after_first_some _ _ _ A) as [pre E].
    now exists token, pre.
  - apply RegistryMore.after_first_none in A. congruence.
Qed.

(** An utterance raises only for want of an engine. *)
Lemma synthesize_raise (U : Upstream) (cli : CliArgs) (text : string)
    (requested : option string) (send_start send_stop : bool) (err : Exn) :
  snd (_synthesize_with_engine U cli text requested send_start send_stop) = Some err ->
  EngineRegistry.pick requested = None /\ err = TypeError_unpack_None.
Proof.
  unfold _synthesize_with_engine.
  destruct (EngineRegistry.pick requested) as [[p v]|] eqn:P.
  - destruct p; cbn [EngineRegistry.engine_stream].
    + unfold GoogleTTSEngine.stream. cbn. discriminate.
    + destruct (routed_token requested v P) as (token & pre & V & _).
      unfold OpenAITTSEngine.stream. rewrite V. cbn. discriminate.
  - cbn. intros [= <-]. now split.
Qed.

End TokenFacts.

(** X9. A voice that [pick] routes to OpenAI always yields a voice token:
    the normalized voice reads [pre ++ "-openai-" ++ token], and the
    adapter started on it raises nothing.  So an utterance raises only
    when [pick] finds no engine, and then it raises the [TypeError]. *)
Theorem X9_routed_voice_has_token :
  (forall (requested : option string) (v : string),
      EngineRegistry.pick requested = Some (openai, v) ->
      (exists token pre,
          OpenAITTSEngine._parse_voice v = Some token
          /\ v = (pre ++ "-openai-" ++ token)%string)
      /\ forall (U : Upstream) (text : string) (cli : CliArgs),
          snd (OpenAITTSEngine.stream U text v cli) = None)
  /\ (forall (U : Upstream) (cli : CliArgs) (text : string) (requested : option string)
             (send_start send_stop : bool) (err : Exn),
         snd (_synthesize_with_engine U cli text requested send_start send_stop) = Some err ->
         EngineRegistry.pick requested = None /\ err = TypeError_unpack_None).
Proof.
  split.
  - intros requested v H. split; [exact (TokenFacts.routed_token requested v H)|].
    intros U text cli.
    destruct (TokenFacts.routed_token requested v H) as (token & pre & P & _).
    unfold OpenAITTSEngine.stream. now rewrite P.
  - intros U cli txt requested send_start send_stop err H.
    exact (TokenFacts.synthesize_raise U cli txt requested send_start send_stop err H).
Qed.

Lemma X9_routed_voice_has_token_witness :
  (exists token pre,
      OpenAITTSEngine._parse_voice "en-us-openai-alloy" = Some token
      /\ "en-us-openai-alloy" = (pre ++ "-openai-" ++ token)%string)
  /\ forall (U : Upstream) (text : string) (cli : CliArgs),
      snd (OpenAITTSEngine.stream U text "en-us-openai-alloy" cli) = None.
Proof.
  destruct X9_routed_voice_has_token as [R _].
  apply (R (Some " en-US-OpenAI-alloy") "en-us-openai-alloy"). reflexivity.
Defined.

(** X10. Called on its own, the OpenAI adapter returns a name without
    the infix stripped and otherwise unchanged, and fails exactly when the
    infix [-openai-] is in the lowercased name but not in the name as
    written: then the adapter yields nothing and raises [IndexError]. *)
Theorem X10_parse_voice_cases (voice_name : string) :
  (Str.contains "-openai-" (Str.lower (Str.strip voice_name)) = false ->
   OpenAITTSEngine._parse_voice voice_name = Some (Str.strip voice_name))
  /\ (OpenAITTSEngine._parse_voice voice_name = None
      <-> Str.contains "-openai-" (Str.lower (Str.strip voice_name)) = true
          /\ Str.contains "-openai-" (Str.strip voice_name) = false)
  /\ (OpenAITTSEngine._parse_voice voice_name = None ->
      forall (U : Upstream) (text : string) (cli : CliArgs),
        OpenAITTSEngine.stream U text voice_name cli = ([], Some IndexError_list)).
Proof.
  unfold OpenAITTSEngine.stream, OpenAITTSEngine._parse_voice. cbv zeta.
  destruct (Str.contains "-openai-" (Str.lower (Str.strip voice_name))) eqn:L.
  - split; [discriminate|]. split.
    + rewrite RegistryMore.after_first_none. tauto.
    + intros H U text cli. now rewrite H.
  - split; [reflexivity|]. split.
    + split; [discriminate | intros [H _]; discriminate H].
    + discriminate.
Qed.

Lemma X10_parse_voice_cases_witness :
  OpenAITTSEngine._parse_voice " alloy " = Some "alloy"
  /\ forall (U : Upstream) (text : string) (cli : CliArgs),
      OpenAITTSEngine.stream U text "en-US-OpenAI-alloy" cli = ([], Some IndexError_list).
Proof.
  split.
  - destruct (X10_parse_voice_cases " alloy ") as (P & _ & _). apply P. reflexivity.
  - destruct (X10_parse_voice_cases "en-US-OpenAI-alloy") as (_ & _ & R).
    apply R. reflexivity.
Defined.

(* ================================================================== *)
(** ** Further properties: the relay of one utterance                   *)
(* ================================================================== *)

Section RelayMore.

Variable cli : CliArgs.

Lemma out_audio_app (a b : list Out) : out_audio (a ++ b) = out_audio a ++ out_audio b.
Proof.
  induction a as [|o a IH]; [reflexivity|].
  destruct o; cbn [app out_audio]; now rewrite IH.
Qed.

Lemma out_audio_relay_loop (send_start announced : bool) (evs : list AudioEvent) :
  out_audio (fst (relay_loop cli send_start announced evs)) = chunk_payloads evs.
Proof.
  revert announced. induction evs as [|[fmt|d] r IH]; intros announced;
    cbn [relay_loop chunk_payloads].
  - reflexivity.
  - destruct (send_start && negb announced); [|apply IH].
    specialize (IH true). destruct (relay_loop cli send_start true r). exact IH.
  - specialize (IH announced). destruct (relay_loop cli send_start announced r).
    cbn [fst out_audio] in *. now rewrite IH.
Qed.

Lemma out_audio_relay (send_start send_stop : bool) (evs : list AudioEvent) :
  out_audio (relay cli send_start send_stop evs) = chunk_payloads evs.
Proof.
  unfold relay. pose proof (out_audio_relay_loop send_start false evs) as L.
  destruct (relay_loop cli send_start false evs) as [outs a]. cbn [fst] in L.
  rewrite out_audio_app, L. destruct (send_stop && a); cbn; apply app_nil_r.
Qed.

Lemma relay_loop_stopless (send_start announced : bool) (evs : list AudioEvent) :
  count is_AudioStop (fst (relay_loop cli send_start announced evs)) = 0%nat.
Proof.
  revert announced. induction evs as [|[fmt|d] r IH]; intros announced; cbn [relay_loop].
  - reflexivity.
  - destruct (send_start && negb announced); [|apply IH].
    specialize (IH true). destruct (relay_loop cli send_start true r). exact IH.
  - specialize (IH announced). destruct (relay_loop cli send_start announced r). exact IH.
Qed.

End RelayMore.

(** X11. The relay hands on the audio bytes as they come: the data of
    the written [AudioChunk] events are the adapter's chunks, all of them
    and in order, whatever the flags and wherever the formats stand (also
    before the first one); so it is for an utterance whose adapter ends
    normally. *)
Theorem X11_relay_keeps_audio :
  (forall (cli : CliArgs) (send_start send_stop : bool) (evs : list AudioEvent),
      out_audio (relay cli send_start send_stop evs) = chunk_payloads evs)
  /\ (forall (U : Upstream) (cli : CliArgs) (txt : string) (requested : option string)
             (send_start send_stop : bool) (p : Provider) (v : string)
             (evs : list AudioEvent),
         EngineRegistry.pick requested = Some (p, v) ->
         EngineRegistry.engine_stream p U txt v cli = (evs, None) ->
         out_audio (fst (_synthesize_with_engine U cli txt requested send_start send_stop))
         = chunk_payloads evs).
Proof.
  split.
  - intros. apply out_audio_relay.
  - intros U cli txt requested send_start send_stop p v evs P E.
    unfold _synthesize_with_engine. rewrite P, E. cbn [fst]. apply out_audio_relay.
Qed.

Lemma X11_relay_keeps_audio_witness :
  out_audio (fst (_synthesize_with_engine Sample.upstream Sample.cli "Hi."
                    (Some "en-US-Chirp3-HD-Charon") true true))
  = [[x0a; x0b]; [x0c]].
Proof.
  destruct X11_relay_keeps_audio as [_ S].
  apply (S Sample.upstream Sample.cli "Hi." (Some "en-US-Chirp3-HD-Charon") true true
           google "en-us-chirp3-hd-charon"
           [Format (mkAudioFormat 22050 2 1); Chunk [x0a; x0b]; Chunk [x0c]]);
    reflexivity.
Defined.

(** X12. The two flags: without [send_start] the relay writes the chunks
    and nothing else, no [AudioStop] either, even with [send_stop] set,
    since nothing was announced; without [send_stop] it never writes an
    [AudioStop]. *)
Theorem X12_relay_flags (cli : CliArgs) (evs : list AudioEvent) :
  (forall send_stop : bool,
      relay cli false send_stop evs = map (audio_chunk cli) (chunk_payloads evs))
  /\ (forall send_start : bool,
         count is_AudioStop (relay cli send_start false evs) = 0%nat).
Proof.
  split.
  - intros send_stop. unfold relay.
    rewrite (relay_loop_quiet cli false false evs eq_refl).
    rewrite andb_false_r. apply app_nil_r.
  - intros send_start. unfold relay.
    pose proof (relay_loop_stopless cli send_start false evs) as L.
    destruct (relay_loop cli send_start false evs) as [outs a]. cbn [fst] in L.
    cbn [andb]. now rewrite app_nil_r.
Qed.

(* ================================================================== *)
(** ** Further properties: the text of a one-shot request               *)
(* ================================================================== *)

Module TextMore.
Import StrMore.

Lemma linebreak_is_space (c : ascii) : Str.is_linebreak c = true -> Str.is_space c = true.
Proof. destruct c as [[] [] [] [] [] [] [] []]; cbn; congruence. Qed.

Lemma CR_is_linebreak (c : ascii) : Ascii.eqb c Str.CR = true -> Str.is_linebreak c = true.
Proof. intros H. apply Ascii.eqb_eq in H. now subst. Qed.

Lemma lstrip_all_space (s : string) : all_space s = true -> Str.lstrip s = EmptyString.
Proof.
  induction s as [|c r IH]; [reflexivity|].
  cbn [all_space all_chars Str.lstrip]. intros H.
  apply andb_true_iff in H. destruct H as [C R]. rewrite C. exact (IH R).
Qed.

Lemma all_space_lstrip (s : string) : all_space (Str.lstrip s) = true -> all_space s = true.
Proof.
  induction s as [|c r IH]; [reflexivity|].
  cbn [Str.lstrip]. destruct (Str.is_space c) eqn:C.
  - intros H. unfold all_space. cbn [all_chars]. rewrite C. exact (IH H).
  - unfold all_space. cbn [all_chars]. now rewrite C.
Qed.

Lemma rstrip_empty (s : string) : Str.rstrip s = EmptyString -> all_space s = true.
Proof.
  induction s as [|c r IH]; [reflexivity|].
  cbn [Str.rstrip]. destruct (Str.rstrip r) as [|b r']; [|discriminate].
  destruct (Str.is_space c) eqn:C; [|discriminate].
  intros _. unfold all_space. cbn [all_chars]. rewrite C. now apply IH.
Qed.

Lemma strip_empty_iff (s : string) : Str.strip s = EmptyString <-> all_space s = true.
Proof.
  unfold Str.strip. split.
  - intros H. apply all_space_lstrip, rstrip_empty, H.
  - intros H. now rewrite (lstrip_all_space s H).
Qed.

Lemma lstrip_head (s : string) (c : ascii) (r : string) :
  Str.lstrip s = String c r -> Str.is_space c = false.
Proof.
  induction s as [|a s IH]; [discriminate|].
  cbn [Str.lstrip]. destruct (Str.is_space a) eqn:A; [exact IH|].
  intros [= <- _]. exact A.
Qed.

Lemma rstrip_head (c : ascii) (r : string) :
  Str.is_space c = false -> exists r', Str.rstrip (String c r) = String c r'.
Proof.
  intros C. cbn [Str.rstrip]. rewrite C.
  destruct (Str.rstrip r) as [|b r']; eauto.
Qed.

Lemma strip_head (s : string) :
  Str.strip s = EmptyString
  \/ exists c r, Str.strip s = String c r /\ Str.is_space c = false.
Proof.
  unfold Str.strip. destruct (Str.lstrip s) as [|c r] eqn:L; [now left|].
  right. destruct (rstrip_head c r (lstrip_head s c r L)) as [r' E].
  exists c, r'. split; [exact E | exact (lstrip_head s c r L)].
Qed.

Lemma join_cons_nonempty (sep cur : string) (l : list string) :
  cur <> EmptyString -> Str.join sep (cur :: l) <> EmptyString.
Proof.
  intros N. destruct cur as [|c cur]; [contradiction|].
  destruct l; cbn; discriminate.
Qed.

Lemma splitlines_from_nonempty (s cur : string) :
  cur <> EmptyString -> Str.join " " (Str.splitlines_from cur s) <> EmptyString.
Proof.
  revert cur. induction s as [|c r IH]; intros cur N.
  - cbn [Str.splitlines_from]. destruct cur; [contradiction | cbn; discriminate].
  - cbn [Str.splitlines_from]. destruct (Ascii.eqb c Str.CR).
    + destruct r as [|c' r']; [now apply join_cons_nonempty|].
      destruct (Ascii.eqb c' Str.LF); now apply join_cons_nonempty.
    + destruct (Str.is_linebreak c); [now apply join_cons_nonempty|].
      apply IH. destruct cur; discriminate.
Qed.

Lemma collapse_empty_iff (txt : string) :
  collapse_lines txt = EmptyString <-> all_space txt = true.
Proof.
  rewrite <- strip_empty_iff. unfold collapse_lines, Str.splitlines. split.
  - intros H. destruct (strip_head txt) as [E|(c & r & E & C)]; [exact E|].
    exfalso. rewrite E in H. cbn [Str.splitlines_from] in H.
    assert (L : Str.is_linebreak c = false).
    { destruct (Str.is_linebreak c) eqn:L; [|reflexivity].
      apply linebreak_is_space in L. congruence. }
    assert (R : Ascii.eqb c Str.CR = false).
    { destruct (Ascii.eqb c Str.CR) eqn:R; [|reflexivity].
      apply CR_is_linebreak in R. congruence. }
    rewrite R, L in H. revert H. apply splitlines_from_nonempty. discriminate.
  - intros ->. reflexivity.
Qed.

Lemma all_chars_app (p : ascii -> bool) (a b : string) :
  all_chars p (a ++ b)%string = all_chars p a && all_chars p b.
Proof.
  induction a as [|c a IH]; [reflexivity|].
  cbn [String.append all_chars]. now rewrite IH, andb_assoc.
Qed.

Lemma join_clean (p : ascii -> bool) (sep : string) (parts : list string) :
  all_chars p sep = true ->
  Forall (fun s => all_chars p s = true) parts ->
  all_chars p (Str.join sep parts) = true.
Proof.
  intros S F. induction F as [|x l X F IH]; [reflexivity|].
  destruct l as [|y l]; [exact X|].
  change (Str.join sep (x :: y :: l)) with (x ++ sep ++ Str.join sep (y :: l))%string.
  now rewrite !all_chars_app, X, S, IH.
Qed.

Lemma splitlines_from_clean (n : nat) (s cur : string) :
  (String.length s <= n)%nat ->
  all_chars not_linebreak cur = true ->
  Forall (fun piece => all_chars not_linebreak piece = true) (Str.splitlines_from cur s).
Proof.
  revert s cur. induction n as [|n IH]; intros s cur L C.
  - destruct s; [|cbn in L; lia].
    cbn. destruct (Str.is_empty cur); repeat constructor. exact C.
  - destruct s as [|c r].
    + cbn. destruct (Str.is_empty cur); repeat constructor. exact C.
    + cbn [String.length] in L. cbn [Str.splitlines_from].
      destruct (Ascii.eqb c Str.CR).
      * destruct r as [|c' r'].
        -- constructor; [exact C | apply IH; [cbn; lia | reflexivity]].
        -- cbn [String.length] in L. destruct (Ascii.eqb c' Str.LF);
             (constructor; [exact C | apply IH; [cbn [String.length]; lia | reflexivity]]).
      * destruct (Str.is_linebreak c) eqn:B.
        -- constructor; [exact C | apply IH; [lia | reflexivity]].
        -- apply IH; [lia|]. rewrite all_chars_app, C. cbn [all_chars].
           unfold not_linebreak. now rewrite B.
Qed.

End TextMore.

(** X13. A one-shot request is answered with a lone [AudioStop], the
    state unchanged, exactly when its text is empty or white space only
    (line breaks included), whatever the voice, routable or not;
    otherwise the collapsed text is synthesized with the request's voice
    and the handler returns [True] or reports and raises what the
    utterance raised. *)
Theorem X13_one_shot_blank_text {SBD : SentenceBoundaryDetector}
    (U : Upstream) (cli : CliArgs) (h : Handler) (syn : Synthesize) :
  not_streaming h = true ->
  (collapse_lines (text syn) = "" <-> StrMore.all_space (text syn) = true)
  /\ (StrMore.all_space (text syn) = true ->
      handle_event U cli h (EvSynthesize syn) = (h, [AudioStop], Return true))
  /\ (StrMore.all_space (text syn) = false ->
      handle_event U cli h (EvSynthesize syn)
      = match _synthesize_with_engine U cli (collapse_lines (text syn))
                (Some (one_shot_voice cli syn)) true true with
        | (outs, Some err) =>
            (h, outs ++ [Error (exn_text err) (exn_class err)], Raise err)
        | (outs, None) => (h, outs, Return true)
        end).
Proof.
  intros N. split; [apply TextMore.collapse_empty_iff|].
  cbn [handle_event]. unfold handle_event_try. rewrite N. unfold one_shot. split.
  - intros A. apply TextMore.collapse_empty_iff in A. now rewrite A.
  - intros A.
    destruct (collapse_lines (text syn)) as [|c r] eqn:E.
    + apply TextMore.collapse_empty_iff in E. congruence.
    + cbn [Str.truthy Str.is_empty negb].
      now destruct (_synthesize_with_engine U cli (String c r) _ true true) as [outs [err|]].
Qed.

Lemma X13_one_shot_blank_text_witness :
  handle_event Sample.upstream Sample.cli Sample.idle
    (EvSynthesize (mkSynthesize (Sample.lines [" "; ""; "  "])
                     (Some (mkVoice (Some "alloy")))))
  = (Sample.idle, [AudioStop], Return true).
Proof.
  destruct (@X13_one_shot_blank_text Sample.line_segmenter Sample.upstream Sample.cli
              Sample.idle
              (mkSynthesize (Sample.lines [" "; ""; "  "]) (Some (mkVoice (Some "alloy"))))
              eq_refl) as (_ & B & _).
  apply B. reflexivity.
Defined.

(** X14. The text a one-shot request hands to the engine holds no line
    break: every line boundary of [splitlines] is gone from the collapsed
    text. *)
Theorem X14_collapsed_text_one_line (txt : string) :
  StrMore.all_chars StrMore.not_linebreak (collapse_lines txt) = true.
Proof.
  unfold collapse_lines, Str.splitlines.
  apply TextMore.join_clean; [reflexivity|].
  apply (TextMore.splitlines_from_clean (String.length (Str.strip txt)));
    [lia | reflexivity].
Qed.

(* ================================================================== *)
(** ** Further properties: the event handler                            *)
(* ================================================================== *)

Section HandlerMore.

Context {SBD : SentenceBoundaryDetector}.
Variable U : Upstream.
Variable cli : CliArgs.

(** [handle_event] below [Describe]: the [try] and its [except]. *)
Lemma handle_event_wrap (h : Handler) (event : Event) :
  event <> EvDescribe ->
  handle_event U cli h event
  = match handle_event_try U cli h event with
    | (h', outs, Raise err) =>
        (h', outs ++ [Error (exn_text err) (exn_class err)], Raise err)
    | r => r
    end.
Proof. destruct event; [contradiction | reflexivity ..]. Qed.

Lemma Forall_count_zero (p : Out -> bool) (outs : list Out) :
  Forall (fun o => p o = false) outs -> count p outs = 0%nat.
Proof.
  unfold count. induction 1 as [|o l O F IH]; [reflexivity|].
  cbn [filter]. now rewrite O.
Qed.

Section Outs.

(** A property of all audio events and of the stream acknowledgement. *)
Variable P : Out -> Prop.
Hypothesis P_start : forall r w c, P (AudioStart r w c).
Hypothesis P_chunk : forall d r w c, P (AudioChunk d r w c).
Hypothesis P_stop : P AudioStop.
Hypothesis P_stopped : P SynthesizeStopped.

Lemma relay_loop_outs (send_start announced : bool) (evs : list AudioEvent) :
  Forall P (fst (relay_loop cli send_start announced evs)).
Proof.
  revert announced. induction evs as [|[fmt|d] r IH]; intros announced; cbn [relay_loop].
  - constructor.
  - destruct (send_start && negb announced); [|apply IH].
    specialize (IH true). destruct (relay_loop cli send_start true r).
    constructor; [apply P_start | exact IH].
  - specialize (IH announced). destruct (relay_loop cli send_start announced r).
    constructor; [apply P_chunk | exact IH].
Qed.

Lemma synthesize_outs (txt : string) (voice_name : option string)
    (send_start send_stop : bool) :
  Forall P (fst (_synthesize_with_engine U cli txt voice_name send_start send_stop)).
Proof.
  unfold _synthesize_with_engine.
  destruct (EngineRegistry.pick voice_name) as [[p v]|]; [|constructor].
  destruct (EngineRegistry.engine_stream p U txt v cli) as [evs [err|]]; cbn [fst].
  - apply relay_loop_outs.
  - unfold relay. pose proof (relay_loop_outs send_start false evs) as L.
    destruct (relay_loop cli send_start false evs) as [outs a]. cbn [fst] in L.
    apply Forall_app. split; [exact L|].
    destruct (send_stop && a); repeat constructor. exact P_stop.
Qed.

Lemma chunk_loop_outs (h : Handler) (syn : Synthesize)
    (sentences : list (string * sbd)) (final : sbd) :
  Forall P (outs_of (chunk_loop U cli h syn sentences final)).
Proof.
  revert syn. induction sentences as [|[sentence st] rest IH]; intros syn; cbn [chunk_loop].
  - constructor.
  - destruct (Str.is_empty (Str.strip sentence)); [constructor|].
    pose proof (synthesize_outs sentence
                  (stream_voice cli (mkSynthesize sentence (voice syn))) true true) as T.
    destruct (_synthesize_with_engine U cli sentence _ true true) as [outs [err|]];
      cbn [fst] in T; [exact T|].
    specialize (IH (mkSynthesize sentence (voice syn))).
    destruct (chunk_loop U cli h _ rest final) as [[h' outs'] res].
    unfold outs_of in *; cbn [fst snd] in *.
    apply Forall_app. now split.
Qed.

Lemma handle_event_try_outs (h : Handler) (event : Event) :
  Forall P (outs_of (handle_event_try U cli h event)).
Proof.
  assert (G : Forall P (outs_of (if negb (getattr_streaming cli) then (h, [], Return true)
                                 else streaming_event U cli h event))).
  { destruct (negb (getattr_streaming cli)); [constructor|].
    destruct event as [|syn0|v|chunk_text| |]; cbn [streaming_event];
      try (constructor; fail).
    - destruct (_synthesize h) as [syn|]; [|constructor].
      destruct (add_chunk (self_sbd h) chunk_text) as [sentences final].
      apply chunk_loop_outs.
    - destruct (_synthesize h) as [syn|]; [|constructor].
      destruct (finish (self_sbd h)) as [final_text s].
      destruct (Str.truthy final_text).
      + pose proof (synthesize_outs final_text (stream_voice cli syn) true true) as T.
        destruct (_synthesize_with_engine U cli final_text _ true true) as [outs [err|]];
          cbn [fst] in T; [exact T|].
        unfold outs_of; cbn [fst snd].
        apply Forall_app. split; [exact T | repeat constructor; exact P_stopped].
      + repeat constructor. exact P_stopped. }
  unfold handle_event_try. destruct event; try exact G.
  destruct (not_streaming h); [|exact G].
  unfold one_shot. destruct (negb (Str.truthy _)); [repeat constructor; exact P_stop|].
  pose proof (synthesize_outs (collapse_lines (text synthesize))
                (Some (one_shot_voice cli synthesize)) true true) as T.
  destruct (_synthesize_with_engine U cli _ _ true true) as [outs [err|]];
    cbn [fst] in T; exact T.
Qed.

End Outs.

Lemma chunk_loop_returns_true (h : Handler) (syn : Synthesize)
    (sentences : list (string * sbd)) (final : sbd) (b : bool) :
  result_of (chunk_loop U cli h syn sentences final) = Return b -> b = true.
Proof.
  revert syn. induction sentences as [|[sentence st] rest IH]; intros syn; cbn [chunk_loop].
  - now intros [= <-].
  - destruct (Str.is_empty (Str.strip sentence)); [now intros [= <-]|].
    destruct (_synthesize_with_engine U cli sentence _ true true) as [outs [err|]];
      [discriminate|].
    specialize (IH (mkSynthesize sentence (voice syn))).
    destruct (chunk_loop U cli h _ rest final) as [[h' outs'] res]. exact IH.
Qed.

Lemma handle_event_try_returns_true (h : Handler) (event : Event) (b : bool) :
  result_of (handle_event_try U cli h event) = Return b -> b = true.
Proof.
  assert (G : result_of (if negb (getattr_streaming cli) then (h, [], Return true)
                         else streaming_event U cli h event) = Return b -> b = true).
  { destruct (negb (getattr_streaming cli)); [now intros [= <-]|].
    destruct event as [|syn0|v|chunk_text| |]; cbn [streaming_event];
      try (now intros [= <-]).
    - destruct (_synthesize h) as [syn|]; [|discriminate].
      destruct (add_chunk (self_sbd h) chunk_text) as [sentences final].
      apply chunk_loop_returns_true.
    - destruct (_synthesize h) as [syn|]; [|discriminate].
      destruct (finish (self_sbd h)) as [final_text s].
      destruct (if Str.truthy final_text
                then _synthesize_with_engine U cli final_text (stream_voice cli syn) true true
                else ([], None)) as [outs [err|]]; [discriminate | now intros [= <-]]. }
  unfold handle_event_try. destruct event; try exact G.
  destruct (not_streaming h); [|exact G].
  unfold one_shot. destruct (negb (Str.truthy _)); [now intros [= <-]|].
  destruct (_synthesize_with_engine U cli _ _ true true) as [outs [err|]];
    [discriminate | now intros [= <-]].
Qed.

End HandlerMore.

(** X15. How [handle_event] ends, for every request in every state: it
    returns [True], never [False], and then has written no [Error]
    event; or it raises, and then the last event written is the one
    [Error] event, which carries the text and the class name of what is
    raised. *)
Theorem X15_returns_true_or_reports {SBD : SentenceBoundaryDetector}
    (U : Upstream) (cli : CliArgs) (h : Handler) (event : Event) :
  match result_of (handle_event U cli h event) with
  | Return b =>
      b = true /\ count is_Error (outs_of (handle_event U cli h event)) = 0%nat
  | Raise err =>
      exists outs,
        outs_of (handle_event U cli h event)
        = outs ++ [Error (exn_text err) (exn_class err)]
        /\ count is_Error outs = 0%nat
  end.
Proof.
  destruct event as [|syn|v|chunk_text| |] eqn:Ev;
    try (rewrite (handle_event_wrap U cli h) by (subst; discriminate));
    [cbn; now split | ..].
  all: rewrite <- Ev;
    pose proof (handle_event_try_outs U cli (fun o => is_Error o = false)
                  (fun _ _ _ => eq_refl) (fun _ _ _ _ => eq_refl) eq_refl eq_refl
                  h event) as F;
    pose proof (handle_event_try_returns_true U cli h event) as R;
    destruct (handle_event_try U cli h event) as [[h' outs] [b|err]];
    unfold result_of, outs_of in *; cbn [fst snd] in *;
    [ split; [now apply R | now apply Forall_count_zero]
    | exists outs; split; [reflexivity | now apply Forall_count_zero] ].
Qed.

Section StreamMore.

Context {SBD : SentenceBoundaryDetector}.
Variable U : Upstream.
Variable cli : CliArgs.

Lemma stop_unfold (h : Handler) (syn : Synthesize) :
  getattr_streaming cli = true ->
  _synthesize h = Some syn ->
  handle_event_try U cli h EvSynthesizeStop
  = let '(final_text, s) := finish (self_sbd h) in
    let '(outs, err) :=
      if Str.truthy final_text
      then _synthesize_with_engine U cli final_text (stream_voice cli syn) true true
      else ([], None) in
    match err with
    | Some e => (mkHandler (is_streaming h) s (Some syn), outs, Raise e)
    | None => (mkHandler (Some false) s (Some syn), outs ++ [SynthesizeStopped], Return true)
    end.
Proof.
  intros G S. unfold handle_event_try. rewrite G. cbn [negb streaming_event].
  rewrite S. destruct (not_streaming h); reflexivity.
Qed.

Lemma synthesize_counts (txt : string) (voice_name : option string) :
  count is_AudioStop (fst (_synthesize_with_engine U cli txt voice_name true true))
  = count is_AudioStart (fst (_synthesize_with_engine U cli txt voice_name true true)).
Proof.
  destruct (synthesize_cases U cli txt voice_name) as [[err E]|[evs E]]; rewrite E.
  - reflexivity.
  - apply relay_counts.
Qed.

Lemma chunk_loop_counts (h : Handler) (syn : Synthesize)
    (sentences : list (string * sbd)) (final : sbd) :
  count is_AudioStop (outs_of (chunk_loop U cli h syn sentences final))
  = count is_AudioStart (outs_of (chunk_loop U cli h syn sentences final)).
Proof.
  revert syn. induction sentences as [|[sentence st] rest IH]; intros syn; cbn [chunk_loop].
  - reflexivity.
  - destruct (Str.is_empty (Str.strip sentence)); [reflexivity|].
    pose proof (synthesize_counts sentence
                  (stream_voice cli (mkSynthesize sentence (voice syn)))) as T.
    destruct (_synthesize_with_engine U cli sentence _ true true) as [outs [err|]];
      cbn [fst] in T; [exact T|].
    specialize (IH (mkSynthesize sentence (voice syn))).
    destruct (chunk_loop U cli h _ rest final) as [[h' outs'] res].
    unfold outs_of in *; cbn [fst snd] in *.
    rewrite !count_app. lia.
Qed.

Lemma chunk_loop_synthesize (h : Handler) (syn : Synthesize)
    (sentences : list (string * sbd)) (final : sbd) :
  _synthesize (state_of (chunk_loop U cli h syn sentences final)) <> None.
Proof.
  revert syn. induction sentences as [|[sentence st] rest IH]; intros syn; cbn [chunk_loop].
  - discriminate.
  - destruct (Str.is_empty (Str.strip sentence)); [discriminate|].
    destruct (_synthesize_with_engine U cli sentence _ true true) as [outs [err|]];
      [discriminate|].
    specialize (IH (mkSynthesize sentence (voice syn))).
    destruct (chunk_loop U cli h _ rest final) as [[h' outs'] res]. exact IH.
Qed.

Lemma chunk_loop_raise (h : Handler) (syn : Synthesize)
    (sentences : list (string * sbd)) (final : sbd) (err : Exn) :
  result_of (chunk_loop U cli h syn sentences final) = Raise err ->
  err = TypeError_unpack_None.
Proof.
  revert syn. induction sentences as [|[sentence st] rest IH]; intros syn; cbn [chunk_loop].
  - discriminate.
  - destruct (Str.is_empty (Str.strip sentence)); [discriminate|].
    pose proof (TokenFacts.synthesize_raise U cli sentence
                  (stream_voice cli (mkSynthesize sentence (voice syn))) true true) as T.
    destruct (_synthesize_with_engine U cli sentence _ true true) as [outs [e|]].
    + intros [= <-]. now apply T.
    + specialize (IH (mkSynthesize sentence (voice syn))).
      destruct (chunk_loop U cli h _ rest final) as [[h' outs'] res]. exact IH.
Qed.

End StreamMore.

(** X16. A stream-stop on an open stream (streaming enabled, a
    stream-start seen) always drains the segmenter.  When the handler
    returns, [SynthesizeStopped] is the last event written and the only
    one, and the stream is closed; when the last utterance raises, no
    [SynthesizeStopped] is written and [is_streaming] stays as it was.
    With no text left the answer is that one event. *)
Theorem X16_stream_stop {SBD : SentenceBoundaryDetector}
    (U : Upstream) (cli : CliArgs) (h : Handler) (syn : Synthesize) :
  getattr_streaming cli = true ->
  _synthesize h = Some syn ->
  let r := handle_event U cli h EvSynthesizeStop in
  self_sbd (state_of r) = snd (finish (self_sbd h))
  /\ (forall b, result_of r = Return b ->
                is_streaming (state_of r) = Some false
                /\ exists outs, outs_of r = outs ++ [SynthesizeStopped]
                                /\ count is_SynthesizeStopped outs = 0%nat)
  /\ (forall err, result_of r = Raise err ->
                  is_streaming (state_of r) = is_streaming h
                  /\ count is_SynthesizeStopped (outs_of r) = 0%nat)
  /\ (fst (finish (self_sbd h)) = "" ->
      r = (mkHandler (Some false) (snd (finish (self_sbd h))) (Some syn),
           [SynthesizeStopped], Return true)).
Proof.
  intros G S r. subst r.
  rewrite (handle_event_wrap U cli h EvSynthesizeStop) by discriminate.
  rewrite (stop_unfold U cli h syn G S).
  destruct (finish (self_sbd h)) as [final_text s]. cbn [fst snd].
  destruct (Str.truthy final_text) eqn:T.
  - pose proof (synthesize_outs U cli (fun o => is_SynthesizeStopped o = false)
                  (fun _ _ _ => eq_refl) (fun _ _ _ _ => eq_refl) eq_refl
                  final_text (stream_voice cli syn) true true) as F.
    destruct (_synthesize_with_engine U cli final_text _ true true) as [outs [err|]];
      cbn [fst] in F; unfold state_of, outs_of, result_of; cbn [fst snd].
    + split; [reflexivity|]. split; [discriminate|]. split.
      * intros e _. split; [reflexivity|].
        rewrite count_app, (Forall_count_zero _ _ F). reflexivity.
      * intros ->. discriminate T.
    + split; [reflexivity|]. split.
      * intros b _. split; [reflexivity|]. exists outs.
        split; [reflexivity | now apply Forall_count_zero].
      * split; [discriminate|]. intros ->. discriminate T.
  - unfold state_of, outs_of, result_of; cbn [fst snd].
    split; [reflexivity|]. split.
    + intros b _. split; [reflexivity|]. now exists [].
    + split; [discriminate|]. reflexivity.
Qed.

Lemma X16_stream_stop_witness :
  handle_event Sample.upstream Sample.cli (Sample.streaming "en-US-openai-alloy")
    EvSynthesizeStop
  = (@mkHandler Sample.line_segmenter (Some false) ""
       (Some (mkSynthesize "" (Some (mkVoice (Some "en-US-openai-alloy"))))),
     [SynthesizeStopped], Return true).
Proof.
  destruct (@X16_stream_stop Sample.line_segmenter Sample.upstream Sample.cli
              (Sample.streaming "en-US-openai-alloy")
              (mkSynthesize "" (Some (mkVoice (Some "en-US-openai-alloy"))))
              eq_refl eq_refl) as (_ & _ & _ & E).
  apply E. reflexivity.
Defined.

Section GateMore.

Context {SBD : SentenceBoundaryDetector}.
Variable U : Upstream.
Variable cli : CliArgs.

Lemma one_shot_state (h : Handler) (syn : Synthesize) :
  state_of (one_shot U cli h syn) = h.
Proof.
  unfold one_shot. destruct (negb (Str.truthy _)); [reflexivity|].
  now destruct (_synthesize_with_engine U cli _ _ true true) as [outs [err|]].
Qed.

Lemma handle_event_state (h : Handler) (event : Event) :
  event <> EvDescribe ->
  state_of (handle_event U cli h event) = state_of (handle_event_try U cli h event).
Proof.
  intros N. rewrite (handle_event_wrap U cli h event N).
  now destruct (handle_event_try U cli h event) as [[h' outs] [b|err]].
Qed.

Lemma handle_event_result (h : Handler) (event : Event) :
  event <> EvDescribe ->
  result_of (handle_event U cli h event) = result_of (handle_event_try U cli h event).
Proof.
  intros N. rewrite (handle_event_wrap U cli h event N).
  now destruct (handle_event_try U cli h event) as [[h' outs] [b|err]].
Qed.

Lemma handle_event_count (p : Out -> bool) (h : Handler) (event : Event) :
  (forall t c, p (Error t c) = false) ->
  event <> EvDescribe ->
  count p (outs_of (handle_event U cli h event))
  = count p (outs_of (handle_event_try U cli h event)).
Proof.
  intros E N. rewrite (handle_event_wrap U cli h event N).
  destruct (handle_event_try U cli h event) as [[h' outs] [b|err]]; [reflexivity|].
  unfold outs_of; cbn [fst snd]. rewrite count_app. unfold count at 2.
  cbn [filter]. rewrite E. cbn. lia.
Qed.

Lemma disabled_state (h : Handler) (event : Event) :
  getattr_streaming cli = false -> state_of (handle_event U cli h event) = h.
Proof.
  intros G. destruct event as [|syn|v|chunk_text| |] eqn:Ev; [reflexivity | ..].
  all: rewrite handle_event_state by discriminate;
    unfold handle_event_try; rewrite G; cbn [negb]; try reflexivity.
  destruct (not_streaming h); [apply one_shot_state | reflexivity].
Qed.

Lemma one_shot_counts (h : Handler) (syn : Synthesize) :
  count is_AudioStop (outs_of (one_shot U cli h syn))
  = (count is_AudioStart (outs_of (one_shot U cli h syn))
     + if Str.is_empty (collapse_lines (text syn)) then 1 else 0)%nat.
Proof.
  unfold one_shot, Str.truthy. rewrite negb_involutive.
  destruct (Str.is_empty (collapse_lines (text syn))); [reflexivity|].
  pose proof (synthesize_counts U cli (collapse_lines (text syn))
                (Some (one_shot_voice cli syn))) as T.
  destruct (_synthesize_with_engine U cli _ _ true true) as [outs [err|]];
    cbn [fst] in T; unfold outs_of; cbn [fst snd]; lia.
Qed.

Lemma streaming_event_counts (h : Handler) (event : Event) :
  count is_AudioStop (outs_of (streaming_event U cli h event))
  = count is_AudioStart (outs_of (streaming_event U cli h event)).
Proof.
  destruct event as [|syn0|v|chunk_text| |]; cbn [streaming_event]; try reflexivity.
  - destruct (_synthesize h) as [syn|]; [|reflexivity].
    destruct (add_chunk (self_sbd h) chunk_text) as [sentences final].
    apply chunk_loop_counts.
  - destruct (_synthesize h) as [syn|]; [|reflexivity].
    destruct (finish (self_sbd h)) as [final_text s].
    destruct (Str.truthy final_text); [|reflexivity].
    pose proof (synthesize_counts U cli final_text (stream_voice cli syn)) as T.
    destruct (_synthesize_with_engine U cli final_text _ true true) as [outs [err|]];
      cbn [fst] in T; unfold outs_of; cbn [fst snd]; [exact T|].
    rewrite !count_app. cbn. lia.
Qed.

Lemma streaming_event_raise (h : Handler) (event : Event) (err : Exn) :
  result_of (streaming_event U cli h event) = Raise err ->
  err = TypeError_unpack_None
  \/ (err = AssertionError_ /\ _synthesize h = None
      /\ (event = EvSynthesizeStop \/ exists t, event = EvSynthesizeChunk t)).
Proof.
  destruct event as [|syn0|v|chunk_text| |]; cbn [streaming_event]; try discriminate.
  - destruct (_synthesize h) as [syn|].
    + destruct (add_chunk (self_sbd h) chunk_text) as [sentences final].
      intros H. left. exact (chunk_loop_raise U cli h syn sentences final err H).
    + intros [= <-]. right. eauto.
  - destruct (_synthesize h) as [syn|].
    + destruct (finish (self_sbd h)) as [final_text s].
      destruct (Str.truthy final_text).
      * pose proof (TokenFacts.synthesize_raise U cli final_text
                      (stream_voice cli syn) true true) as T.
        destruct (_synthesize_with_engine U cli final_text _ true true) as [outs [e|]];
          [|discriminate].
        intros [= <-]. left. now apply T.
      * discriminate.
    + intros [= <-]. right. eauto.
Qed.

Lemma handle_event_try_raise (h : Handler) (event : Event) (err : Exn) :
  result_of (handle_event_try U cli h event) = Raise err ->
  err = TypeError_unpack_None
  \/ (err = AssertionError_ /\ _synthesize h = None
      /\ (event = EvSynthesizeStop \/ exists t, event = EvSynthesizeChunk t)).
Proof.
  assert (G : result_of (if negb (getattr_streaming cli) then (h, [], Return true)
                         else streaming_event U cli h event) = Raise err ->
              err = TypeError_unpack_None
              \/ (err = AssertionError_ /\ _synthesize h = None
                  /\ (event = EvSynthesizeStop \/ exists t, event = EvSynthesizeChunk t))).
  { destruct (negb (getattr_streaming cli)); [discriminate|].
    apply streaming_event_raise. }
  unfold handle_event_try. destruct event; try exact G.
  destruct (not_streaming h); [|exact G].
  unfold one_shot. destruct (negb (Str.truthy _)); [discriminate|].
  pose proof (TokenFacts.synthesize_raise U cli (collapse_lines (text synthesize))
                (Some (one_shot_voice cli synthesize)) true true) as T.
  destruct (_synthesize_with_engine U cli _ _ true true) as [outs [e|]]; [|discriminate].
  intros [= <-]. left. now apply T.
Qed.

Lemma handle_event_try_keeps_synthesize (h : Handler) (event : Event) :
  _synthesize h <> None ->
  _synthesize (state_of (handle_event_try U cli h event)) <> None.
Proof.
  intros S.
  assert (G : _synthesize (state_of (if negb (getattr_streaming cli)
                                     then (h, [], Return true)
                                     else streaming_event U cli h event)) <> None).
  { destruct (negb (getattr_streaming cli)); [exact S|].
    destruct event as [|syn0|v|chunk_text| |]; cbn [streaming_event];
      try exact S; try discriminate.
    - destruct (_synthesize h) as [syn|]; [|contradiction].
      destruct (add_chunk (self_sbd h) chunk_text) as [sentences final].
      apply chunk_loop_synthesize.
    - destruct (_synthesize h) as [syn|]; [|contradiction].
      destruct (finish (self_sbd h)) as [final_text s].
      destruct (if Str.truthy final_text
                then _synthesize_with_engine U cli final_text (stream_voice cli syn) true true
                else ([], None)) as [outs [e|]]; discriminate. }
  unfold handle_event_try. destruct event; try exact G.
  destruct (not_streaming h); [|exact G].
  now rewrite one_shot_state.
Qed.

End GateMore.

(** X17. With streaming disabled in [cli_args] the handler keeps no
    stream: stream-start, stream-chunk, stream-stop and unknown events
    are answered [True] with nothing written, and however many requests
    are served the handler's state is the one it started with, so every
    [Synthesize] of an idle handler is served as a one-shot request. *)
Theorem X17_streaming_disabled {SBD : SentenceBoundaryDetector}
    (U : Upstream) (cli : CliArgs) :
  getattr_streaming cli = false ->
  (forall (h : Handler) (event : Event),
      event <> EvDescribe -> (forall syn, event <> EvSynthesize syn) ->
      handle_event U cli h event = (h, [], Return true))
  /\ (forall (h : Handler) (events : list Event), state_of (run U cli h events) = h).
Proof.
  intros G. split.
  - intros h event D S. rewrite (handle_event_wrap U cli h event D).
    unfold handle_event_try. rewrite G.
    destruct event; try reflexivity. now destruct (S synthesize).
  - intros h events. revert h. induction events as [|e rest IH]; intros h; [reflexivity|].
    cbn [run]. pose proof (disabled_state U cli h e G) as D.
    destruct (handle_event U cli h e) as [[h' outs] [b|err]];
      unfold state_of in D; cbn [fst] in D; subst h'; [|reflexivity].
    specialize (IH h). destruct (run U cli h rest) as [[h'' outs'] res]. exact IH.
Qed.

Lemma X17_streaming_disabled_witness :
  state_of (run Sample.upstream (mkCliArgs None None (Some false)) Sample.idle
              [EvSynthesizeStart None; EvSynthesizeChunk (Sample.lines ["One."]);
               EvSynthesize (mkSynthesize "Hi." None); EvSynthesizeStop])
  = Sample.idle.
Proof.
  destruct (@X17_streaming_disabled Sample.line_segmenter Sample.upstream
              (mkCliArgs None None (Some false)) eq_refl) as [_ R].
  apply R.
Defined.

(** X18. The assertion on [self._synthesize]: a stream-chunk or a
    stream-stop that comes before any accepted stream-start raises
    [AssertionError], reported with an empty text, and leaves the state
    as it was; no other request raises an [AssertionError]; and once
    [self._synthesize] is set no request unsets it. *)
Theorem X18_assertion {SBD : SentenceBoundaryDetector} (U : Upstream) (cli : CliArgs) :
  (forall (h : Handler) (event : Event),
      getattr_streaming cli = true ->
      _synthesize h = None ->
      event = EvSynthesizeStop \/ (exists t, event = EvSynthesizeChunk t) ->
      handle_event U cli h event
      = (h, [Error "" "AssertionError"], Raise AssertionError_))
  /\ (forall (h : Handler) (event : Event) (err : Exn),
         result_of (handle_event U cli h event) = Raise err ->
         exn_class err = "AssertionError" ->
         _synthesize h = None
         /\ (event = EvSynthesizeStop \/ exists t, event = EvSynthesizeChunk t))
  /\ (forall (h : Handler) (event : Event),
         _synthesize h <> None ->
         _synthesize (state_of (handle_event U cli h event)) <> None).
Proof.
  split; [|split].
  - intros h event G S [->|[t ->]];
      cbn [handle_event]; unfold handle_event_try; rewrite G;
      cbn [negb streaming_event]; rewrite S;
      destruct (not_streaming h); reflexivity.
  - intros h event err R C.
    destruct event as [|syn|v|chunk_text| |] eqn:Ev; [discriminate R | ..].
    all: rewrite handle_event_result in R by discriminate;
      apply handle_event_try_raise in R;
      destruct R as [->|(-> & S & E)]; [discriminate C | now split].
  - intros h event S.
    destruct event as [|syn|v|chunk_text| |] eqn:Ev; [exact S | ..].
    all: rewrite handle_event_state by discriminate;
      now apply handle_event_try_keeps_synthesize.
Qed.

Lemma X18_assertion_witness :
  handle_event Sample.upstream Sample.cli Sample.idle (EvSynthesizeChunk "One.")
  = (Sample.idle, [Error "" "AssertionError"], Raise AssertionError_)
  /\ _synthesize (state_of (handle_event Sample.upstream Sample.cli
                              (Sample.streaming "alloy")
                              (EvSynthesizeChunk (Sample.lines ["One."])))) <> None.
Proof.
  destruct (@X18_assertion Sample.line_segmenter Sample.upstream Sample.cli) as (A & _ & K).
  split.
  - apply A; [reflexivity | reflexivity | right; now exists "One."].
  - apply K. discriminate.
Defined.

(** X19. Whenever [handle_event] returns, the [AudioStop] events it has
    written are as many as the [AudioStart] events, but for the one-shot
    request with blank text, whose lone [AudioStop] has no start. *)
Theorem X19_starts_and_stops_balance {SBD : SentenceBoundaryDetector}
    (U : Upstream) (cli : CliArgs) (h : Handler) (event : Event) (b : bool) :
  result_of (handle_event U cli h event) = Return b ->
  count is_AudioStop (outs_of (handle_event U cli h event))
  = (count is_AudioStart (outs_of (handle_event U cli h event))
     + match event with
       | EvSynthesize syn =>
           if not_streaming h && Str.is_empty (collapse_lines (text syn)) then 1 else 0
       | _ => 0
       end)%nat.
Proof.
  intros _.
  assert (G : count is_AudioStop
                (outs_of (if negb (getattr_streaming cli) then (h, [], Return true)
                          else streaming_event U cli h event))
              = count is_AudioStart
                  (outs_of (if negb (getattr_streaming cli) then (h, [], Return true)
                            else streaming_event U cli h event))).
  { destruct (negb (getattr_streaming cli)); [reflexivity|].
    apply streaming_event_counts. }
  destruct event as [|syn|v|chunk_text| |] eqn:Ev; [reflexivity | ..].
  all: rewrite !handle_event_count by (reflexivity || discriminate);
    unfold handle_event_try.
  2-5: rewrite G; lia.
  destruct (not_streaming h); cbn [andb].
  - apply one_shot_counts.
  - rewrite G. lia.
Qed.

Lemma X19_starts_and_stops_balance_witness :
  count is_AudioStop
    (outs_of (handle_event Sample.upstream Sample.cli (Sample.streaming "en-US-openai-alloy")
                (EvSynthesizeChunk (Sample.lines ["One."; "Two."]))))
  = (count is_AudioStart
       (outs_of (handle_event Sample.upstream Sample.cli
                   (Sample.streaming "en-US-openai-alloy")
                   (EvSynthesizeChunk (Sample.lines ["One."; "Two."]))))
     + 0)%nat.
Proof.
  apply (@X19_starts_and_stops_balance Sample.line_segmenter Sample.upstream Sample.cli
           (Sample.streaming "en-US-openai-alloy")
           (EvSynthesizeChunk (Sample.lines ["One."; "Two."])) true).
  reflexivity.
Defined.

(* ================================================================== *)
(** ** Further properties: the sentences of one chunk                   *)
(* ================================================================== *)

Section ChunkMore.

Context {SBD : SentenceBoundaryDetector}.
Variable U : Upstream.
Variable cli : CliArgs.

Lemma chunk_loop_all (h : Handler) (sentences : list (string * sbd)) (final : sbd)
    (syn : Synthesize) :
  EngineRegistry.pick (stream_voice cli syn) <> None ->
  Forall (fun p => Str.is_empty (Str.strip (fst p)) = false) sentences ->
  chunk_loop U cli h syn sentences final
  = (mkHandler (is_streaming h) final
       (Some (mkSynthesize (fold_left (fun _ p => fst p) sentences (text syn)) (voice syn))),
     flat_map (fun p => fst (_synthesize_with_engine U cli (fst p)
                               (stream_voice cli syn) true true)) sentences,
     Return true).
Proof.
  intros P F. revert syn P.
  induction F as [|[sentence st] rest B F IH]; intros syn P; cbn [chunk_loop].
  - now destruct syn.
  - cbn [fst] in B. rewrite B.
    change (stream_voice cli (mkSynthesize sentence (voice syn)))
      with (stream_voice cli syn).
    pose proof (TokenFacts.synthesize_raise U cli sentence (stream_voice cli syn)
                  true true) as R.
    cbn [flat_map fold_left fst].
    destruct (_synthesize_with_engine U cli sentence (stream_voice cli syn) true true)
      as [outs [err|]].
    + destruct (R err eq_refl) as [N _]. contradiction.
    + rewrite (IH (mkSynthesize sentence (voice syn)) P). reflexivity.
Qed.

End ChunkMore.

(** X20. A stream-chunk on an open stream whose voice has an engine,
    when none of the sentences the segmenter yields is blank: every
    sentence is synthesized as an utterance of its own, in order, with
    the stream's voice; the handler returns [True], the detector is left
    as the exhausted generator left it, and the stream stays as it was. *)
Theorem X20_chunk_sentences {SBD : SentenceBoundaryDetector}
    (U : Upstream) (cli : CliArgs) (h : Handler) (syn : Synthesize)
    (chunk_text : string) (sentences : list (string * sbd)) (final : sbd) :
  getattr_streaming cli = true ->
  _synthesize h = Some syn ->
  add_chunk (self_sbd h) chunk_text = (sentences, final) ->
  EngineRegistry.pick (stream_voice cli syn) <> None ->
  Forall (fun p => Str.is_empty (Str.strip (fst p)) = false) sentences ->
  handle_event U cli h (EvSynthesizeChunk chunk_text)
  = (mkHandler (is_streaming h) final
       (Some (mkSynthesize (fold_left (fun _ p => fst p) sentences (text syn)) (voice syn))),
     flat_map (fun p => fst (_synthesize_with_engine U cli (fst p)
                               (stream_voice cli syn) true true)) sentences,
     Return true).
Proof.
  intros G S A P F. cbn [handle_event]. unfold handle_event_try. rewrite G.
  cbn [negb streaming_event]. rewrite S, A.
  rewrite (chunk_loop_all U cli h sentences final syn P F).
  destruct (not_streaming h); reflexivity.
Qed.

Lemma X20_chunk_sentences_witness :
  handle_event Sample.upstream Sample.cli (Sample.streaming "en-US-Chirp3-HD-Charon")
    (EvSynthesizeChunk (Sample.lines ["One."; "Two."] ++ "Thr")%string)
  = (@mkHandler Sample.line_segmenter (Some true) "Thr"
       (Some (mkSynthesize "Two." (Some (mkVoice (Some "en-US-Chirp3-HD-Charon"))))),
     [AudioStart 22050 2 1; AudioChunk [x0a; x0b] 22050 2 1; AudioChunk [x0c] 22050 2 1;
      AudioStop;
      AudioStart 22050 2 1; AudioChunk [x0a; x0b] 22050 2 1; AudioChunk [x0c] 22050 2 1;
      AudioStop],
     Return true).
Proof.
  apply (@X20_chunk_sentences Sample.line_segmenter Sample.upstream Sample.cli
           (Sample.streaming "en-US-Chirp3-HD-Charon")
           (mkSynthesize "" (Some (mkVoice (Some "en-US-Chirp3-HD-Charon"))))
           (Sample.lines ["One."; "Two."] ++ "Thr")%string
           [("One.", (Sample.lines ["Two."] ++ "Thr")%string); ("Two.", "Thr")] "Thr").
  - reflexivity.
  - reflexivity.
  - reflexivity.
  - discriminate.
  - repeat constructor.
Defined.

(* ================================================================== *)
(** ** Further properties: the advertised voices                        *)
(* ================================================================== *)

Module MainMore.
Import Main.

Lemma lower_app (a b : string) :
  Str.lower (a ++ b)%string = (Str.lower a ++ Str.lower b)%string.
Proof. induction a as [|c a IH]; cbn; [reflexivity | now rewrite IH]. Qed.

Lemma startswith_app (t b : string) : Str.startswith t (t ++ b)%string = true.
Proof.
  induction t as [|c t IH]; [reflexivity|].
  cbn [String.append Str.startswith]. now rewrite Ascii.eqb_refl, IH.
Qed.

Lemma contains_here (t b : string) : Str.contains t (t ++ b)%string = true.
Proof.
  destruct (t ++ b)%string eqn:E; cbn [Str.contains];
    rewrite <- E, startswith_app; reflexivity.
Qed.

Lemma contains_app_r (t a s : string) :
  Str.contains t s = true -> Str.contains t (a ++ s)%string = true.
Proof.
  intros H. induction a as [|c a IH]; [exact H|].
  cbn [String.append Str.contains]. rewrite IH. apply orb_true_r.
Qed.

Lemma contains_infix (t a b : string) : Str.contains t (a ++ t ++ b)%string = true.
Proof. apply contains_app_r, contains_here. Qed.

Lemma google_name_infix (language voice : string) :
  Str.contains "-chirp3-hd-" (Str.lower (voice_name_of "-Chirp3-HD-" language voice)) = true.
Proof.
  unfold voice_name_of. rewrite !lower_app.
  change (Str.lower "-Chirp3-HD-") with "-chirp3-hd-". apply contains_infix.
Qed.

Lemma openai_name_infix (language voice : string) :
  Str.contains "-openai-" (Str.lower (voice_name_of "-openai-" language voice)) = true.
Proof.
  unfold voice_name_of. rewrite !lower_app.
  change (Str.lower "-openai-") with "-openai-". apply contains_infix.
Qed.

Lemma pick_by_infix (voice_name : string) :
  EngineRegistry.pick (Some voice_name)
  = if Str.contains "-chirp3-hd-" (Str.lower voice_name)
    then Some (google, Str.lower (Str.strip voice_name))
    else if Str.contains "-openai-" (Str.lower voice_name)
         then Some (openai, Str.lower (Str.strip voice_name))
         else None.
Proof.
  rewrite RegistryMore.pick_table. cbn [requested_name]. cbv zeta.
  now rewrite !StrFacts.contains_lower_strip by reflexivity.
Qed.

Lemma make_voice_known (key voice language : string) (attribution : option Attribution) :
  known_key key = true ->
  exists tv a,
    make_voice key voice language attribution = Some (tv, Some a)
    /\ EngineRegistry.pick (Some (tts_name tv)) <> None.
Proof.
  unfold known_key, make_voice. intros K.
  destruct (String.eqb key "google").
  - eexists _, _. split; [reflexivity|]. cbn [tts_name].
    rewrite pick_by_infix, google_name_infix. discriminate.
  - cbn [orb] in K. rewrite K.
    eexists _, _. split; [reflexivity|]. cbn [tts_name].
    rewrite pick_by_infix, openai_name_infix.
    destruct (Str.contains "-chirp3-hd-" _); discriminate.
Qed.

Lemma over_languages_known (key voice : string) (languages : list string)
    (attribution : option Attribution) :
  known_key key = true ->
  exists vs a,
    over_languages key voice languages attribution = Some (vs, a)
    /\ length vs = length languages /\ Forall routable vs.
Proof.
  intros K. revert attribution.
  induction languages as [|l rest IH]; intros attribution; cbn [over_languages].
  - now exists [], attribution.
  - destruct (make_voice_known key voice l attribution K) as (tv & a & M & R).
    rewrite M. destruct (IH (Some a)) as (vs & a' & O & L & F). rewrite O.
    exists (tv :: vs), a'. cbn [length]. repeat split; [now rewrite L | now constructor].
Qed.

Lemma over_voices_known (key : string) (voices languages : list string)
    (attribution : option Attribution) :
  known_key key = true ->
  exists vs a,
    over_voices key voices languages attribution = Some (vs, a)
    /\ length vs = (length voices * length languages)%nat /\ Forall routable vs.
Proof.
  intros K. revert attribution.
  induction voices as [|v rest IH]; intros attribution; cbn [over_voices].
  - now exists [], attribution.
  - destruct (over_languages_known key v languages attribution K) as (vs & a & O & L & F).
    rewrite O. destruct (IH a) as (vs' & a' & O' & L' & F'). rewrite O'.
    exists (vs ++ vs'), a'. split; [reflexivity|]. split.
    + rewrite length_app, L, L'. cbn [length]. lia.
    + now apply Forall_app.
Qed.

Lemma over_keys_known (voices_data : list (string * ProviderVoices))
    (attribution : option Attribution) :
  forallb (fun kv => known_key (fst kv)) voices_data = true ->
  exists vs a,
    over_keys voices_data attribution = Some (vs, a)
    /\ length vs = catalog_size voices_data /\ Forall routable vs.
Proof.
  revert attribution.
  induction voices_data as [|[key pv] rest IH]; intros attribution K;
    cbn [over_keys catalog_size].
  - now exists [], attribution.
  - cbn [forallb fst] in K. apply andb_true_iff in K. destruct K as [K1 K2].
    destruct (over_voices_known key (pv_voices pv) (pv_languages pv) attribution K1)
      as (vs & a & O & L & F).
    rewrite O. destruct (IH a K2) as (vs' & a' & O' & L' & F'). rewrite O'.
    exists (vs ++ vs'), a'. split; [reflexivity|]. split.
    + rewrite length_app, L, L'. reflexivity.
    + now apply Forall_app.
Qed.

End MainMore.

(** X21. The names [main] advertises and the registry agree: a name
    built for the key [google] is always routed to Google; a name built
    for the key [openai] always has an engine, and it is OpenAI unless
    the lowercased name also holds [-chirp3-hd-]. *)
Theorem X21_advertised_names_route (language voice : string) :
  EngineRegistry.pick (Some (Main.voice_name_of "-Chirp3-HD-" language voice))
  = Some (google,
          Str.lower (Str.strip (Main.voice_name_of "-Chirp3-HD-" language voice)))
  /\ EngineRegistry.pick (Some (Main.voice_name_of "-openai-" language voice)) <> None
  /\ (Str.contains "-chirp3-hd-"
        (Str.lower (Main.voice_name_of "-openai-" language voice)) = false ->
      EngineRegistry.pick (Some (Main.voice_name_of "-openai-" language voice))
      = Some (openai,
              Str.lower (Str.strip (Main.voice_name_of "-openai-" language voice)))).
Proof.
  rewrite !MainMore.pick_by_infix.
  rewrite MainMore.google_name_infix, MainMore.openai_name_infix.
  split; [reflexivity|]. split.
  - destruct (Str.contains "-chirp3-hd-" _); discriminate.
  - now intros ->.
Qed.

Lemma X21_advertised_names_route_witness :
  EngineRegistry.pick (Some (Main.voice_name_of "-openai-" "en_US" "alloy"))
  = Some (openai, "en-us-openai-alloy").
Proof.
  destruct (X21_advertised_names_route "en_US" "alloy") as (_ & _ & O).
  apply O. reflexivity.
Defined.

(** X22. For a catalog whose keys are [google] and [openai] only, [main]
    builds one voice for every pair of a voice and a language of every
    key, and the registry has an engine for the name of each of them. *)
Theorem X22_catalog_routable (voices_data : list (string * Main.ProviderVoices)) :
  forallb (fun kv => Main.known_key (fst kv)) voices_data = true ->
  exists voices,
    Main.build_voices voices_data = Some voices
    /\ length voices = Main.catalog_size voices_data
    /\ Forall Main.routable voices.
Proof.
  intros K. unfold Main.build_voices.
  destruct (MainMore.over_keys_known voices_data None K) as (vs & a & O & L & F).
  rewrite O. now exists vs.
Qed.

Lemma X22_catalog_routable_witness :
  exists voices,
    Main.build_voices Main.sample_catalog = Some voices
    /\ length voices = 5%nat
    /\ Forall Main.routable voices.
Proof.
  apply (X22_catalog_routable Main.sample_catalog). reflexivity.
Defined.

(** X23. A catalog key other than [google] and [openai]: as the first key
    with a voice and a language it stops [main] with the error of reading
    [attribution] unbound; after a known key it adds a voice with an empty
    name and the attribution of the key before, and the registry has no
    engine for that name. *)
Theorem X23_unknown_catalog_key (key : string) :
  Main.known_key key = false ->
  (forall (voice language : string) (voices languages : list string)
          (rest : list (string * Main.ProviderVoices)),
      Main.build_voices
        ((key, Main.mkProviderVoices (voice :: voices) (language :: languages)) :: rest)
      = None)
  /\ (forall (voice language : string) (a : Main.Attribution),
         Main.make_voice key voice language (Some a)
         = Some (Main.mkTtsVoice "" "" a [language], Some a)
         /\ ~ Main.routable (Main.mkTtsVoice "" "" a [language])).
Proof.
  unfold Main.known_key. intros K. apply orb_false_iff in K. destruct K as [G O].
  split.
  - intros. unfold Main.build_voices.
    cbn [Main.over_keys Main.pv_voices Main.pv_languages Main.over_voices
         Main.over_languages].
    unfold Main.make_voice. now rewrite G, O.
  - intros voice language a. unfold Main.make_voice. rewrite G, O.
    split; [reflexivity|]. intros R. now apply R.
Qed.

Lemma X23_unknown_catalog_key_witness :
  Main.build_voices [("azure", Main.mkProviderVoices ["Ava"] ["en_US"])] = None.
Proof.
  destruct (X23_unknown_catalog_key "azure" eq_refl) as [F _].
  apply (F "Ava" "en_US" [] [] []).
Defined.
